(** * OpenLCS: a shallow embedding of the import back end

    The development follows the layout of the repository:
    - [Common]      openlcs/libs/common.py
    - [Products]    openlcs/products/models.py
    - [Serializers] openlcs/packages/serializers.py

    Python dictionaries with string keys are finite maps ([gmap string _]);
    raised exceptions are the [Raise] branch of [result]; the database, the
    file system and the task queue are explicit states threaded through the
    operations that touch them. *)

From stdpp Require Import gmap strings list fin_maps pretty.
From Stdlib Require Import ZArith Ascii Permutation.

Open Scope string_scope.
Open Scope list_scope.

(** ** Python values and exceptions *)

(** The scalar values that occur in component records and in task
    parameters. *)
Inductive pyval :=
  | VNone
  | VBool (b : bool)
  | VInt (z : Z)
  | VStr (s : string).

#[global] Instance pyval_eq_dec : EqDecision pyval.
Proof. solve_decision. Defined.

(** The exception classes raised or caught by the embedded code. *)
Inductive exn :=
  | KeyError (key : string)
  | TypeError
  | OSError
  | RuntimeError
  | CalledProcessError (status : nat)
  | DoesNotExist
  | MultipleObjectsReturned
  | IntegrityError
  | ValidationError (msg : string).

#[global] Instance exn_eq_dec : EqDecision exn.
Proof. solve_decision. Defined.

Inductive result (A : Type) :=
  | Ok (a : A)
  | Raise (e : exn).
Arguments Ok {A} a.
Arguments Raise {A} e.

(** Sequencing: an exception skips the rest of the block. The instances
    give [result] the [x ← m; k] notation. *)
#[global] Instance result_ret : MRet result := fun _ a => Ok a.
#[global] Instance result_bind : MBind result := fun _ _ f m =>
  match m with
  | Ok a => f a
  | Raise e => Raise e
  end.

(** [for x in l: ...] over a body that may raise. *)
Fixpoint rmap {A B} (f : A -> result B) (l : list A) : result (list B) :=
  match l with
  | [] => Ok []
  | x :: l' => y ← f x; ys ← rmap f l'; Ok (y :: ys)
  end.

(** [str(v)], which is what an empty format specification applies. *)
Definition py_str (v : pyval) : string :=
  match v with
  | VNone => "None"
  | VBool true => "True"
  | VBool false => "False"
  | VInt z => pretty z
  | VStr s => s
  end.

(** Truthiness, as tested by [if v:] and [if not v:]. *)
Definition py_truthy (v : pyval) : bool :=
  match v with
  | VNone => false
  | VBool b => b
  | VInt z => negb (Z.eqb z 0)
  | VStr s => negb (String.eqb s "")
  end.

(** [a == b]: booleans are integers, so [True == 1] and [False == 0];
    [py_key] picks the representative that hashing and [==] agree on. *)
Definition py_key (v : pyval) : pyval :=
  match v with
  | VBool b => VInt (if b then 1 else 0)
  | _ => v
  end.

Definition py_eqb (a b : pyval) : bool := bool_decide (py_key a = py_key b).

Module Common.

(** *** group_components *)

(** A component record is a dict with string keys. *)
Abbreviation component := (gmap string pyval).

(** [operator.itemgetter(key)]: subscripting a dict without the key raises
    [KeyError]. *)
Definition itemgetter (key : string) (c : component) : result pyval :=
  match c !! key with
  | Some v => Ok v
  | None => Raise (KeyError key)
  end.

(** [itertools.groupby]: one pass from the left that keeps the key of the
    group being read ([tgtkey]) and closes the group when the next key
    differs from it. The list holds each element with its computed key. *)
Fixpoint groupby_go {A} (tgtkey : pyval) (cur : list A)
    (l : list (pyval * A)) : list (pyval * list A) :=
  match l with
  | [] => [(tgtkey, cur)]
  | (k, x) :: l' =>
      if py_eqb k tgtkey then groupby_go tgtkey (cur ++ [x]) l'
      else (tgtkey, cur) :: groupby_go k [x] l'
  end.

Definition groupby {A} (l : list (pyval * A)) : list (pyval * list A) :=
  match l with
  | [] => []
  | (k, x) :: l' => groupby_go k [x] l'
  end.

(** A [defaultdict(list)] in insertion order: [dd_append key i result] is
    [result[key].append(i)]. A key that compares equal to an existing one
    reaches the existing entry, whose key object is kept; a new key is added
    at the end with a fresh list. *)
Fixpoint dd_append {A} (key : pyval) (i : A) (result : list (pyval * list A))
    : list (pyval * list A) :=
  match result with
  | [] => [(key, [i])]
  | (k, g) :: rest =>
      if py_eqb k key then (k, g ++ [i]) :: rest
      else (k, g) :: dd_append key i rest
  end.

(** [d.get(key)] on such a dict. *)
Fixpoint dd_get {A} (key : pyval) (d : list (pyval * list A)) : option (list A) :=
  match d with
  | [] => None
  | (k, g) :: rest => if py_eqb k key then Some g else dd_get key rest
  end.

(** The body of the outer loop: [for i in items: result[key].append(i)]. *)
Definition append_items {A} (result : list (pyval * list A))
    (group : pyval * list A) : list (pyval * list A) :=
  foldl (fun result i => dd_append (fst group) i result) result (snd group).

(** The key function is applied to every component as [groupby] advances; a
    component without the key raises [KeyError] out of the loop, and since
    [result] is local nothing of it is seen by the caller. *)
Definition keyed (key : string) (components : list component)
    : result (list (pyval * component)) :=
  rmap (fun c => k ← itemgetter key c; Ok (k, c)) components.

Definition group_components (components : list component) (key : string)
    : result (list (pyval * list component)) :=
  kcs ← keyed key components;
  Ok (foldl append_items [] (groupby kcs)).

(** The input is pre-sorted when equal key values are contiguous: once the
    run of a key has ended the key does not come back. *)
Fixpoint run_then_gone (k : pyval) (ks : list pyval) : bool :=
  match ks with
  | [] => true
  | k' :: ks' =>
      if py_eqb k' k then run_then_gone k ks'
      else forallb (fun k'' => negb (py_eqb k'' k)) ks'
  end.

Fixpoint contiguous (ks : list pyval) : bool :=
  match ks with
  | [] => true
  | k :: ks' => run_then_gone k ks' && contiguous ks'
  end.

(** The records of [components] whose [key] field equals [k], in input
    order. *)
Definition has_key (key : string) (k : pyval) (c : component) : bool :=
  match c !! key with
  | Some v => py_eqb v k
  | None => false
  end.

Definition with_key (key : string) (k : pyval) (components : list component)
    : list component :=
  List.filter (has_key key k) components.

(** The key values present in such a dict up to [==], in insertion
    order. *)
Definition classes {A} (d : list (pyval * list A)) : list pyval :=
  (fun e => py_key e.1) <$> d.

(** One loop over the elements with their own keys:
    [result[kx.1].append(kx.2)]. *)
Definition add {A} (d : list (pyval * list A)) (kx : pyval * A)
    : list (pyval * list A) :=
  dd_append kx.1 kx.2 d.

(** The key values of a list in the order in which each is seen first,
    after those already [seen]. *)
Fixpoint first_seen (seen : list pyval) (ks : list pyval) : list pyval :=
  match ks with
  | [] => []
  | k :: ks' =>
      if bool_decide (py_key k ∈ seen) then first_seen seen ks'
      else py_key k :: first_seen (seen ++ [py_key k]) ks'
  end.

(** *** get_nvr_list_from_components *)

(** One replacement field of [str.format] called with the component's
    items as keyword arguments: the field name is looked up among them; a
    missing one raises [KeyError]. *)
Definition format_field (c : component) (field : string) : result string :=
  match c !! field with
  | Some v => Ok (py_str v)
  | None => Raise (KeyError field)
  end.

(** The format string [{name}-{version}-{release}], its fields resolved
    from the left. *)
Definition format_nvr (c : component) : result string :=
  n ← format_field c "name";
  v ← format_field c "version";
  r ← format_field c "release";
  Ok (n +:+ "-" +:+ v +:+ "-" +:+ r).

(** [components.get(comp_type)] is [None] for a type without entry, and
    iterating [None] raises [TypeError]. *)
Definition get_nvr_list_from_components
    (components : list (pyval * list component)) (comp_type : pyval)
    : result (list string) :=
  match dd_get comp_type components with
  | None => Raise TypeError
  | Some group => rmap format_nvr group
  end.

(** A component that carries the three fields, with the string built from
    them. *)
Definition nvr_of (c : component) (s : string) : Prop :=
  exists n v r,
    c !! "name" = Some n /\ c !! "version" = Some v /\ c !! "release" = Some r
    /\ s = py_str n +:+ "-" +:+ py_str v +:+ "-" +:+ py_str r.

(** A component that lacks one of the three fields. *)
Definition lacks_field (c : component) : Prop :=
  c !! "name" = None \/ c !! "version" = None \/ c !! "release" = None.

(** *** get_mime_type *)

Section MimeType.
(** [mimetypes.MimeTypes().guess_type(filepath)[0]]: the static table from
    file extensions to types. *)
Variable guess_type : string -> option string.
(** [filetype.guess_mime(filepath)]: sniffing of the signature bytes, which
    opens the file and so may raise. *)
Variable guess_mime : string -> result (option string).

(** [not mime_type] on an optional string. *)
Definition not_mime (mime_type : option string) : bool :=
  match mime_type with
  | None => true
  | Some s => String.eqb s ""
  end.

Definition get_mime_type (filepath : string) : result (option string) :=
  let mime_type := guess_type filepath in
  if not_mime mime_type then
    match guess_mime filepath with
    | Ok sniffed => Ok sniffed
    | Raise TypeError => Ok mime_type
    | Raise e => Raise e
    end
  else Ok mime_type.
End MimeType.

(** *** compress_source_to_tarball *)

#[local] Set Warnings "-register-all".

(** A file system entry: a regular file with its data or a directory with
    its named entries. *)
Inductive node :=
  | File (data : string)
  | Dir (entries : list (string * node)).

(** The part of the file system the function touches: the directories that
    can be a [src_dir], by path, and the archives written so far, by path.
    An archive is the list of members given to [tar], each with everything
    below it; [gzip -n] adds nothing that depends on the time or the
    name. *)
Record fs := {
  dirs : gmap string (list (string * node));
  archives : gmap string (list (string * node));
}.

(** Pathname expansion of the star by the shell: the names in the working
    directory that do not begin with a period; when there is none the word
    is left as it is. *)
Definition hidden (name : string) : bool :=
  match name with
  | String "."%char _ => true
  | _ => false
  end.

Definition glob_star (entries : list (string * node)) : list string :=
  match List.filter (fun name => negb (hidden name)) (entries.*1) with
  | [] => ["*"]
  | names => names
  end.

Definition dir_lookup (entries : list (string * node)) (name : string)
    : option (string * node) :=
  (fun n => (name, n)) <$> (list_to_map entries : gmap string node) !! name.

(** [tar -c names]: the members that exist are written to the output, and
    the exit status is 2 when one of the names does not exist. *)
Definition tar_c (entries : list (string * node)) (names : list string)
    : nat * list (string * node) :=
  (if forallb (fun name => bool_decide (is_Some (dir_lookup entries name))) names
   then 0 else 2,
   omap (dir_lookup entries) names).

Section Tarball.
(** Whether the shell can open the path for writing. *)
Variable can_create : string -> bool.

(** The command [tar -c  * | gzip -n > dest_file] run by [sh] in [cwd]:
    the status of a pipeline is the status of its last command, here
    [gzip] with its redirection. *)
Definition run_pipeline (w : fs) (dest_file : string)
    (entries : list (string * node)) : nat * fs :=
  let '(_, members) := tar_c entries (glob_star entries) in
  if can_create dest_file
  then (0, {| dirs := dirs w; archives := <[dest_file := members]> (archives w) |})
  else (1, w).

(** [subprocess.check_call(cmd, shell=True, cwd=src_dir)]: a working
    directory that does not exist makes the call itself raise [OSError];
    a non-zero status raises [CalledProcessError]. *)
Definition check_call (w : fs) (dest_file src_dir : string) : result unit * fs :=
  match dirs w !! src_dir with
  | None => (Raise OSError, w)
  | Some entries =>
      let '(status, w') := run_pipeline w dest_file entries in
      if Nat.eqb status 0 then (Ok (), w')
      else (Raise (CalledProcessError status), w')
  end.

Definition rmtree (w : fs) (path : string) : fs :=
  {| dirs := delete path (dirs w); archives := archives w |}.

Definition compress_source_to_tarball (w : fs) (dest_file src_dir : string)
    : result unit * fs :=
  match check_call w dest_file src_dir with
  | (Raise (CalledProcessError _), w') => (Raise RuntimeError, w')
  | (Raise e, w') => (Raise e, w')
  | (Ok _, w') => (Ok (), rmtree w' src_dir)
  end.
End Tarball.

(** *** create_dir *)

Section CreateDir.
(** What [shutil.rmtree(directory, ignore_errors=True)] leaves of a
    directory with the given entries: nothing ([None]) when the tree could
    be removed, otherwise the directory with the entries that could not. *)
Variable rmtree_leaves :
  string -> list (string * node) -> option (list (string * node)).
(** Whether [os.makedirs] may create the path (permissions, parents). *)
Variable can_make : string -> bool.




End CreateDir.

End Common.

Module Products.

(** *** Product and Release *)

Record Product := {
  product_id : nat;
  product_name : string;
}.

(** A row of the release table; [release_product] is the foreign key. The
    comment on the field in the model reads: 'name' is a joint string:
    product-version. *)
Record Release := {
  release_id : nat;
  release_product : nat;
  release_version : string;
  release_name : string;
  release_notes : string;
}.

Record release_table := {
  releases : list Release;
  release_seq : nat;
}.

(** The rows [self.release_set] selects with [name=name, version=version]. *)
Definition release_matches (self : Product) (name version : string)
    (r : Release) : bool :=
  Nat.eqb (release_product r) (product_id self)
  && String.eqb (release_name r) name
  && String.eqb (release_version r) version.

(** [unique_together] and the constraint [unique_product_version]. *)
Definition same_product_version (self : Product) (version : string)
    (r : Release) : bool :=
  Nat.eqb (release_product r) (product_id self)
  && String.eqb (release_version r) version.

Definition set_notes (notes : string) (r : Release) : Release :=
  {| release_id := release_id r;
     release_product := release_product r;
     release_version := release_version r;
     release_name := release_name r;
     release_notes := notes |}.

(** [Product.add_release]: [update_or_create] looks the row up by the
    keyword arguments; a single match has the defaults written to it, no
    match inserts a row made of the keyword arguments and the defaults,
    which the store refuses when (product, version) is taken. *)
Definition add_release (t : release_table) (self : Product)
    (name version notes : string) : result Release * release_table :=
  match List.filter (release_matches self name version) (releases t) with
  | [r] =>
      let r' := set_notes notes r in
      (Ok r',
       {| releases :=
            map (fun x => if Nat.eqb (release_id x) (release_id r)
                          then r' else x) (releases t);
          release_seq := release_seq t |})
  | [] =>
      if existsb (same_product_version self version) (releases t)
      then (Raise IntegrityError, t)
      else
        let r := {| release_id := release_seq t;
                    release_product := product_id self;
                    release_version := version;
                    release_name := name;
                    release_notes := notes |} in
        (Ok r,
         {| releases := releases t ++ [r]; release_seq := S (release_seq t) |})
  | _ => (Raise MultipleObjectsReturned, t)
  end.

(** The name the comment on the field describes. *)
Definition joint_name (self : Product) (version : string) : string :=
  product_name self +:+ "-" +:+ version.

(** What the release table keeps: ids below the sequence, no id twice, and
    (product, version) unique. *)
Definition release_inv (t : release_table) : Prop :=
  (forall r, r ∈ releases t -> release_id r < release_seq t)
  /\ NoDup (release_id <$> releases t)
  /\ (forall a b, a ∈ releases t -> b ∈ releases t ->
        release_product a = release_product b ->
        release_version a = release_version b -> release_id a = release_id b).

(** *** ReleasePackage *)

Record ReleasePackage := {
  package_id : nat;
  package_release : nat;
  package_nvr : string;
  is_source : bool;
}.

Record package_table := {
  packages : list ReleasePackage;
  package_seq : nat;
}.

(** The constraint [unique_release_package_nvr]. *)
Definition same_release_nvr (release : nat) (nvr : string)
    (p : ReleasePackage) : bool :=
  Nat.eqb (package_release p) release && String.eqb (package_nvr p) nvr.

(** One row of a [bulk_create]; [None] when the store refuses it. *)
Definition insert_package (t : package_table) (obj : nat * string * bool)
    : option package_table :=
  let '(release, nvr, src) := obj in
  if existsb (same_release_nvr release nvr) (packages t) then None
  else Some {| packages :=
                 packages t ++ [{| package_id := package_seq t;
                                   package_release := release;
                                   package_nvr := nvr;
                                   is_source := src |}];
               package_seq := S (package_seq t) |}.

(** [ReleasePackage.objects.bulk_create(objs)]: one statement, which
    inserts every row or, on a violated constraint, none. *)
Definition bulk_create (t : package_table) (objs : list (nat * string * bool))
    : result unit * package_table :=
  match foldl (fun acc obj => acc ≫= fun t' => insert_package t' obj)
              (Some t) objs with
  | Some t' => (Ok (), t')
  | None => (Raise IntegrityError, t)
  end.

(** [self.packages.values_list('package_nvr', flat=True)]. *)
Definition existed_nvrs (t : package_table) (self : Release) : list string :=
  package_nvr <$>
    List.filter (fun p => Nat.eqb (package_release p) (release_id self))
                (packages t).

(** [Release.update_packages]. The list made from the difference of the two
    sets has the order the set gives it, which no caller may rely on. *)
Definition update_packages (t : package_table) (self : Release)
    (nvr_list : list string) (is_source : bool) : result unit * package_table :=
  let existed_nvrs := existed_nvrs t self in
  let nvrs :=
    elements ((list_to_set nvr_list : gset string) ∖ list_to_set existed_nvrs) in
  let objs := (fun nvr => (release_id self, nvr, is_source)) <$> nvrs in
  bulk_create t objs.

(** The rows a [bulk_create] adds for the given nvrs, from the sequence
    value [seq0] on. *)
Fixpoint new_packages (release : nat) (src : bool) (seq0 : nat)
    (nvrs : list string) : list ReleasePackage :=
  match nvrs with
  | [] => []
  | nvr :: rest =>
      {| package_id := seq0; package_release := release;
         package_nvr := nvr; is_source := src |}
      :: new_packages release src (S seq0) rest
  end.

(** What the package table keeps: (release, package_nvr) unique. *)
Definition package_inv (t : package_table) : Prop :=
  forall i j a b,
    packages t !! i = Some a -> packages t !! j = Some b ->
    package_release a = package_release b -> package_nvr a = package_nvr b ->
    i = j.

(** *** Tree nodes *)

(** The columns [MpttTreeNodeMixin] declares. The columns the tree library
    maintains for range queries are derived from [parent] and are not read
    by any constraint. *)
Record TreeNode := {
  node_id : nat;
  node_name : string;
  parent : option nat;
  content_type : nat;
  object_id : nat;
}.

(** The two concrete models of the mixin, one table each. *)
Inductive tree :=
  | ProductTree
  | ComponentTree.

(** [Meta.constraints] of each model: [ProductTreeNode] declares
    [UniqueConstraint(fields=['parent', 'object_id'])]; [ComponentTreeNode]
    declares no [Meta]. *)
Definition unique_parent_content_object (t : tree) : bool :=
  match t with
  | ProductTree => true
  | ComponentTree => false
  end.

Record table := {
  rows : list TreeNode;
  seq : nat;
}.

Record store := {
  product_nodes : table;
  component_nodes : table;
}.

Definition table_of (t : tree) (s : store) : table :=
  match t with
  | ProductTree => product_nodes s
  | ComponentTree => component_nodes s
  end.

Definition set_table (t : tree) (tb : table) (s : store) : store :=
  match t with
  | ProductTree => {| product_nodes := tb; component_nodes := component_nodes s |}
  | ComponentTree => {| product_nodes := product_nodes s; component_nodes := tb |}
  end.

(** Two rows collide under the unique constraint when both columns are
    equal; as in SQL a null [parent] is equal to nothing, itself
    included. *)
Definition collide (a b : TreeNode) : bool :=
  match parent a, parent b with
  | Some p, Some q => Nat.eqb p q && Nat.eqb (object_id a) (object_id b)
  | _, _ => false
  end.

Definition has_row (tb : table) (id : nat) : bool :=
  existsb (fun r => Nat.eqb (node_id r) id) (rows tb).

(** What the store checks before a row is written: the parent it refers to
    exists, and no other row collides with it when the model declares the
    constraint. *)
Definition check_row (t : tree) (tb : table) (n : TreeNode) : bool :=
  match parent n with
  | Some p => has_row tb p
  | None => true
  end
  && (negb (unique_parent_content_object t)
      || forallb (fun r => Nat.eqb (node_id r) (node_id n) || negb (collide r n))
                 (rows tb)).

(** [objects.create(...)]: the row takes the next id of the table. *)
Definition create (t : tree) (s : store) (name : string) (par : option nat)
    (ct oid : nat) : result TreeNode * store :=
  let tb := table_of t s in
  let n := {| node_id := seq tb; node_name := name; parent := par;
              content_type := ct; object_id := oid |} in
  if check_row t tb n
  then (Ok n, set_table t {| rows := rows tb ++ [n]; seq := S (seq tb) |} s)
  else (Raise IntegrityError, s).

(** [node.save()] on a row that exists: its columns are overwritten. *)
Definition save (t : tree) (s : store) (n : TreeNode) : result unit * store :=
  let tb := table_of t s in
  if has_row tb (node_id n) then
    if check_row t tb n
    then (Ok (),
          set_table t
            {| rows := map (fun r => if Nat.eqb (node_id r) (node_id n)
                                     then n else r) (rows tb);
               seq := seq tb |} s)
    else (Raise IntegrityError, s)
  else (Raise DoesNotExist, s).

(** [on_delete=CASCADE] on [parent]: the ids removed together with [ids],
    found by following the parent column [fuel] times. *)
Fixpoint cascade (fuel : nat) (rs : list TreeNode) (ids : list nat) : list nat :=
  match fuel with
  | O => ids
  | S fuel' =>
      cascade fuel' rs
        (ids ++ map node_id
           (List.filter (fun r => match parent r with
                                  | Some p => bool_decide (p ∈ ids)
                                  | None => false
                                  end) rs))
  end.

(** [node.delete()]. *)
Definition delete_node (t : tree) (s : store) (id : nat) : store :=
  let tb := table_of t s in
  let gone := cascade (List.length (rows tb)) (rows tb) [id] in
  set_table t
    {| rows := List.filter (fun r => negb (bool_decide (node_id r ∈ gone))) (rows tb);
       seq := seq tb |} s.

(** One operation of the store on either tree. *)
Inductive step : store -> store -> Prop :=
  | step_create t s name par ct oid :
      step s (create t s name par ct oid).2
  | step_save t s n :
      step s (save t s n).2
  | step_delete t s id :
      step s (delete_node t s id).

Definition empty_store : store :=
  {| product_nodes := {| rows := []; seq := 1 |};
     component_nodes := {| rows := []; seq := 1 |} |}.

(** The states the operations reach from the empty store. *)
Definition reachable (s : store) : Prop := rtc step empty_store s.

(** No two rows of the table have equal parent and equal [object_id]. *)
Definition sibling_unique (tb : table) : Prop :=
  forall i j a b,
    rows tb !! i = Some a -> rows tb !! j = Some b ->
    parent a = parent b -> object_id a = object_id b -> i = j.

(** The same for rows below a parent. *)
Definition child_unique (tb : table) : Prop :=
  forall i j a b p,
    rows tb !! i = Some a -> rows tb !! j = Some b ->
    parent a = Some p -> parent b = Some p ->
    object_id a = object_id b -> i = j.

(** What the product table keeps: ids below the sequence, no id twice, and
    no two rows below a parent with one [object_id]. *)
Definition table_inv (tb : table) : Prop :=
  (forall r, r ∈ rows tb -> node_id r < seq tb)
  /\ NoDup (node_id <$> rows tb)
  /\ (forall a b p, a ∈ rows tb -> b ∈ rows tb ->
        parent a = Some p -> parent b = Some p ->
        object_id a = object_id b -> node_id a = node_id b).


(** The ids that [cascade] adds in one round. *)
Definition children_of (rs : list TreeNode) (ids : list nat) : list nat :=
  map node_id
    (List.filter (fun r => match parent r with
                           | Some p => bool_decide (p ∈ ids)
                           | None => false
                           end) rs).

(** The rows whose ids are not in the list, and whether one of them is the
    child of a member. *)
Definition out (rs : list TreeNode) (ids : list nat) : list TreeNode :=
  List.filter (fun r => negb (bool_decide (node_id r ∈ ids))) rs.

Definition pending (rs : list TreeNode) (ids : list nat) : bool :=
  existsb (fun r => match parent r with
                    | Some p => bool_decide (p ∈ ids)
                                && negb (bool_decide (node_id r ∈ ids))
                    | None => false
                    end) rs.

(** A list of ids that holds the children of its members. *)
Definition closed (rs : list TreeNode) (ids : list nat) : Prop :=
  forall r p, r ∈ rs -> parent r = Some p -> p ∈ ids -> node_id r ∈ ids.

End Products.

Module Serializers.

Import Products.

(** A celery task parameters dict. *)
Abbreviation pydict := (gmap string pyval).

(** Modelled from the spec: the Task model (tasks/models.py is not among the
    sources): a record created per unit of import work with its owner, the
    correlation id given by the worker substrate, the task flow invoked and
    the parameter payload. The fields are the keyword arguments of
    [Task.objects.create] in [fork_import_tasks]. *)
Record Task := {
  task_id : nat;
  owner_id : nat;
  meta_id : string;
  task_flow : string;
  task_params : pydict;
}.

(** A message handed to the worker pool by [app.send_task(name, args)],
    with the id the client gave it. *)
Record message := {
  msg_task_id : string;
  msg_name : string;
  msg_args : list pydict;
}.

(** The state the serializers read and write: the release table, the task
    table with its id sequence, and the messages sent so far. *)
Record world := {
  release_rows : list Release;
  tasks : list Task;
  task_seq : nat;
  sent : list message;
}.

(** The fields of [NVRImportSerializer] after validation. An optional field
    that the request leaves out is absent from [validated_data];
    [product_release] may also be present and null. *)
Record validated_data := {
  package_nvrs : list string;
  license_scan : option bool;
  copyright_scan : option bool;
  srpm_dir : option string;
  product_release : option (option string);
}.

(** [Release.objects.get(name=value)]. *)
Definition release_get (w : world) (name : string) : result Release :=
  match List.filter (fun r => String.eqb (release_name r) name) (release_rows w) with
  | [r] => Ok r
  | [] => Raise DoesNotExist
  | _ => Raise MultipleObjectsReturned
  end.

(** [release_validator]: only [Release.DoesNotExist] is caught. *)
Definition release_validator (w : world) (value : option string)
    : result (option string) :=
  match value with
  | Some name =>
      match release_get w name with
      | Ok _ => Ok value
      | Raise DoesNotExist =>
          Raise (ValidationError ("Non-existent product release: " +:+ name))
      | Raise e => Raise e
      end
  | None => Ok value
  end.

(** The [product_release] field of [ReleaseImportMixin]: [required=False]
    lets it be absent, a null value is kept without running the validators
    ([allow_null=True]), and a string is given to [release_validator]. The
    string is the value as it reaches the validators. *)
Definition validate_product_release (w : world)
    (field : option (option string)) : result (option (option string)) :=
  match field with
  | None => Ok None
  | Some None => Ok (Some None)
  | Some (Some name) => v ← release_validator w (Some name); Ok (Some v)
  end.

(** [is_valid(raise_exception=True)], as far as the validators of the
    sources go: the data is returned as [validated_data] or the error is
    raised. Validation reads the store and writes nothing. *)
Definition is_valid (w : world) (data : validated_data) : result validated_data :=
  pr ← validate_product_release w (product_release data);
  Ok {| package_nvrs := package_nvrs data;
        license_scan := license_scan data;
        copyright_scan := copyright_scan data;
        srpm_dir := srpm_dir data;
        product_release := pr |}.

Definition get_task_flow : string := "flow.tasks.flow_default".

(** [ReleaseImportMixin.get_task_params], on the empty dict of
    [ImportSerializer.get_task_params]. *)
Definition get_task_params (data : validated_data) : pydict :=
  let params : pydict := ∅ in
  let params := <["license_scan" := VBool (default true (license_scan data))]> params in
  let params := <["copyright_scan" := VBool (default true (copyright_scan data))]> params in
  let params :=
    match srpm_dir data with
    | Some d => <["srpm_dir" := VStr d]> params
    | None => params
    end in
  match product_release data with
  | Some (Some r) =>
      if py_truthy (VStr r) then <["product_release" := VStr r]> params
      else params
  | _ => params
  end.

(** [dict(package_nvr=nvr, **params)]: a keyword given twice raises
    [TypeError]. *)
Definition dict_package_nvr (nvr : string) (params : pydict) : result pydict :=
  match params !! "package_nvr" with
  | Some _ => Raise TypeError
  | None => Ok (<["package_nvr" := VStr nvr]> params)
  end.

(** [NVRImportSerializer.get_tasks_params]. *)
Definition get_tasks_params (data : validated_data)
    : result (list (string * pydict)) :=
  let params := get_task_params data in
  rmap (fun nvr => p ← dict_package_nvr nvr params; Ok (nvr, p))
       (package_nvrs data).

(** [copy.deepcopy] of a dict of scalars: a new dict with the same items. *)
Definition deepcopy_val (v : pyval) : pyval :=
  match v with
  | VNone => VNone
  | VBool b => VBool b
  | VInt z => VInt z
  | VStr s => VStr s
  end.

Definition deepcopy (d : pydict) : pydict := deepcopy_val <$> d.

Section Fork.
(** The id the task queue client gives to the n-th message it sends. *)
Variable uuid : nat -> string.

(** [app.send_task(task_flow, [params])]. *)
Definition send_task (w : world) (name : string) (args : list pydict)
    : message * world :=
  let m := {| msg_task_id := uuid (List.length (sent w));
              msg_name := name; msg_args := args |} in
  (m, {| release_rows := release_rows w; tasks := tasks w;
         task_seq := task_seq w; sent := sent w ++ [m] |}).

(** [Task.objects.create(...)]. *)
Definition task_create (w : world) (owner : nat) (meta flow : string)
    (p : pydict) : Task * world :=
  let t := {| task_id := task_seq w; owner_id := owner; meta_id := meta;
              task_flow := flow; task_params := p |} in
  (t, {| release_rows := release_rows w; tasks := tasks w ++ [t];
         task_seq := S (task_seq w); sent := sent w |}).

(** The body of the loop of [fork_import_tasks] for one item. *)
Definition fork_one (user_id : nat) (flow : string)
    (acc : gmap string (gmap string nat) * world) (item : string * pydict)
    : gmap string (gmap string nat) * world :=
  let '(result, w) := acc in
  let '(key, task_params) := item in
  let params := deepcopy task_params in
  let params := <["owner_id" := VInt (Z.of_nat user_id)]> params in
  let '(celery_task, w) := send_task w flow [params] in
  let '(task, w) :=
    task_create w user_id (msg_task_id celery_task) flow task_params in
  (<[key := {["task_id" := task_id task]}]> result, w).

(** [ImportSerializer.fork_import_tasks]. *)
Definition fork_import_tasks (w : world) (data : validated_data)
    (user_id : nat) : result (gmap string (gmap string nat)) * world :=
  let task_flow := get_task_flow in
  match get_tasks_params data with
  | Raise e => (Raise e, w)
  | Ok items =>
      let '(result, w') := foldl (fork_one user_id task_flow) (∅, w) items in
      (Ok result, w')
  end.

(** The claims about [fork_import_tasks], in their own words: the
    payload of an item is the shared parameters merged with its key; an
    item is given a Task record with the correlation id of its message,
    and the message carries a deep copy of the payload plus the owner
    id. [task_at] and [message_at] take the value of the id sequence and
    the count of messages at the item. *)
Definition item_params (data : validated_data) (nvr : string) : pydict :=
  <["package_nvr" := VStr nvr]> (get_task_params data).

Definition task_at (data : validated_data) (user_id seq0 sent0 : nat)
    (nvr : string) : Task :=
  {| task_id := seq0; owner_id := user_id; meta_id := uuid sent0;
     task_flow := get_task_flow; task_params := item_params data nvr |}.

Definition message_at (data : validated_data) (user_id sent0 : nat)
    (nvr : string) : message :=
  {| msg_task_id := uuid sent0; msg_name := get_task_flow;
     msg_args := [<["owner_id" := VInt (Z.of_nat user_id)]>
                    (deepcopy (item_params data nvr))] |}.

(** The records, the messages and the result of a whole batch. *)
Fixpoint tasks_from (data : validated_data) (user_id seq0 sent0 : nat)
    (nvrs : list string) : list Task :=
  match nvrs with
  | [] => []
  | nvr :: rest =>
      task_at data user_id seq0 sent0 nvr
      :: tasks_from data user_id (S seq0) (S sent0) rest
  end.

Fixpoint messages_from (data : validated_data) (user_id sent0 : nat)
    (nvrs : list string) : list message :=
  match nvrs with
  | [] => []
  | nvr :: rest =>
      message_at data user_id sent0 nvr
      :: messages_from data user_id (S sent0) rest
  end.

Fixpoint result_from (seq0 : nat) (nvrs : list string)
    (result : gmap string (gmap string nat)) : gmap string (gmap string nat) :=
  match nvrs with
  | [] => result
  | nvr :: rest =>
      result_from (S seq0) rest (<[nvr := {["task_id" := seq0]}]> result)
  end.

(** What the task table and the message log keep: task ids below the
    sequence, no task id twice, and the n-th message sent carries the
    n-th id of the client. *)
Definition world_inv (w : world) : Prop :=
  (forall t, t ∈ tasks w -> task_id t < task_seq w)
  /\ NoDup (task_id <$> tasks w)
  /\ (forall i m, sent w !! i = Some m -> msg_task_id m = uuid i).

(** Modelled from the spec: the caller of the serializer (the view is not
    among the sources), which performs validation before submission: the
    request is validated and, when valid, forked into tasks. *)
Definition submit_import (w : world) (data : validated_data) (user_id : nat)
    : result (gmap string (gmap string nat)) * world :=
  match is_valid w data with
  | Raise e => (Raise e, w)
  | Ok validated => fork_import_tasks w validated user_id
  end.
End Fork.

End Serializers.

(** * Properties *)

(** ** Equality of Python values *)

Lemma py_eqb_eq a b : py_eqb a b = true <-> py_key a = py_key b.
Proof. unfold py_eqb. apply bool_decide_eq_true. Qed.

Lemma py_eqb_refl a : py_eqb a a = true.
Proof. by apply py_eqb_eq. Qed.

Lemma py_eqb_sym a b : py_eqb a b = py_eqb b a.
Proof. unfold py_eqb. apply bool_decide_ext. split; congruence. Qed.

Lemma py_eqb_congr a b c : py_eqb a b = true -> py_eqb c a = py_eqb c b.
Proof.
  intros H%py_eqb_eq. unfold py_eqb. apply bool_decide_ext. split; congruence.
Qed.

Lemma py_eqb_neq a b : py_eqb a b = false <-> py_key a ≠ py_key b.
Proof. unfold py_eqb. apply bool_decide_eq_false. Qed.

(** Binding on a successful value. *)
Lemma rbind_ok {A B} (a : A) (f : A -> result B) : (Ok a ≫= f) = f a.
Proof. reflexivity. Qed.

Lemma rbind_raise {A B} e (f : A -> result B) : (Raise e ≫= f) = Raise e.
Proof. reflexivity. Qed.

Ltac rsimpl := rewrite ?rbind_ok, ?rbind_raise.

(** ** libs/common.py: grouping *)

Import Common.

Section Grouping.
Context {A : Type}.
Implicit Types (d : list (pyval * list A)) (l : list (pyval * A)).

Lemma dd_get_None d k : dd_get k d = None <-> py_key k ∉ classes d.
Proof.
  induction d as [|[k0 g] d IH]; simpl.
  - split; [intros _; apply not_elem_of_nil | done].
  - destruct (py_eqb k0 k) eqn:E.
    + split; [done|]. intros H. exfalso. apply H. apply py_eqb_eq in E.
      rewrite E. apply list_elem_of_here.
    + rewrite IH. apply py_eqb_neq in E. rewrite not_elem_of_cons.
      split; [intros H; split; [congruence | done] | by intros [_ H]].
Qed.

Lemma dd_get_append d k k' x :
  dd_get k (dd_append k' x d) =
    if py_eqb k' k then Some (default [] (dd_get k d) ++ [x]) else dd_get k d.
Proof.
  induction d as [|[k0 g] d IH]; simpl.
  - by destruct (py_eqb k' k).
  - destruct (py_eqb k0 k') eqn:E0; simpl.
    + rewrite (py_eqb_sym k' k), <- (py_eqb_congr _ _ k E0), (py_eqb_sym k k0).
      by destruct (py_eqb k0 k).
    + destruct (py_eqb k0 k) eqn:E1; [|done].
      destruct (py_eqb k' k) eqn:E2; [|done].
      rewrite (py_eqb_congr _ _ k0 E2) in E0. congruence.
Qed.

Lemma dd_append_same_class d k k' x :
  py_eqb k k' = true -> py_key k ∈ classes d ->
  dd_append k x d = dd_append k' x d.
Proof.
  intros E. induction d as [|[k0 g] d IH]; simpl.
  - intros H. by apply elem_of_nil in H.
  - intros H. rewrite <- (py_eqb_congr _ _ k0 E).
    destruct (py_eqb k0 k) eqn:E0; [done|]. f_equal. apply IH.
    apply elem_of_cons in H as [H|H]; [|done].
    apply py_eqb_neq in E0. simpl in H. congruence.
Qed.

Lemma classes_cons k0 (g : list A) d :
  classes ((k0, g) :: d) = py_key k0 :: classes d.
Proof. reflexivity. Qed.

Lemma classes_append d k x :
  classes (dd_append k x d) =
    if bool_decide (py_key k ∈ classes d) then classes d
    else classes d ++ [py_key k].
Proof.
  induction d as [|[k0 g] d IH]; [done|].
  cbn [dd_append]. destruct (py_eqb k0 k) eqn:E0; rewrite !classes_cons.
  - apply py_eqb_eq in E0. rewrite bool_decide_eq_true_2; [done|].
    rewrite E0. apply list_elem_of_here.
  - apply py_eqb_neq in E0. rewrite IH.
    destruct (decide (py_key k ∈ classes d)) as [Hin|Hin].
    + rewrite !bool_decide_eq_true_2; [done| |done].
      by apply list_elem_of_further.
    + rewrite !bool_decide_eq_false_2; [done| |done].
      rewrite not_elem_of_cons. split; [congruence | done].
Qed.

Lemma classes_append_NoDup d k x :
  NoDup (classes d) -> NoDup (classes (dd_append k x d)).
Proof.
  intros H. rewrite classes_append. case_bool_decide as Hin; [done|].
  apply NoDup_app. split_and!; [done | | apply NoDup_singleton].
  intros y Hy Hy'. apply list_elem_of_singleton in Hy'. by subst.
Qed.

Lemma concat_append d k x :
  concat (dd_append k x d).*2 ≡ₚ concat d.*2 ++ [x].
Proof.
  induction d as [|[k0 g] d IH]; simpl; [done|].
  destruct (py_eqb k0 k); simpl.
  - rewrite <- !app_assoc. apply Permutation_app_head. apply Permutation_app_comm.
  - rewrite IH. by rewrite app_assoc.
Qed.

Lemma add_foldl_get l : forall d k,
  dd_get k (foldl add d l) =
    let xs := (List.filter (fun kx => py_eqb kx.1 k) l).*2 in
    match dd_get k d with
    | Some g => Some (g ++ xs)
    | None => match xs with [] => None | _ => Some xs end
    end.
Proof.
  induction l as [|[k' x] l IH]; intros d k; simpl.
  - destruct (dd_get k d); [by rewrite app_nil_r | done].
  - rewrite IH. unfold add. simpl. rewrite dd_get_append.
    destruct (py_eqb k' k); simpl; [|done].
    destruct (dd_get k d); simpl; [by rewrite <- app_assoc | done].
Qed.

Lemma add_foldl_NoDup l : forall d,
  NoDup (classes d) -> NoDup (classes (foldl add d l)).
Proof.
  induction l as [|[k x] l IH]; intros d H; simpl; [done|].
  apply IH. by apply classes_append_NoDup.
Qed.

Lemma add_foldl_concat l : forall d,
  concat (foldl add d l).*2 ≡ₚ concat d.*2 ++ l.*2.
Proof.
  induction l as [|[k x] l IH]; intros d; simpl; [by rewrite app_nil_r|].
  rewrite IH. unfold add. simpl. rewrite concat_append.
  by rewrite <- app_assoc.
Qed.

Lemma dd_get_elem_of d k g :
  NoDup (classes d) -> (k, g) ∈ d -> dd_get k d = Some g.
Proof.
  induction d as [|[k0 g0] d IH]; simpl; intros Hnd Hin.
  - by apply elem_of_nil in Hin.
  - apply NoDup_cons in Hnd as [Hk0 Hnd].
    apply elem_of_cons in Hin as [Heq|Hin].
    + inversion Heq; subst. by rewrite py_eqb_refl.
    + destruct (py_eqb k0 k) eqn:E; [|by apply IH].
      exfalso. apply Hk0. apply py_eqb_eq in E. simpl. rewrite E.
      apply (list_elem_of_fmap_2 (fun e => py_key e.1) _ _ Hin).
Qed.
End Grouping.

Section Runs.
Context {A : Type}.
Implicit Types (d : list (pyval * list A)) (l : list (pyval * A)).

Lemma classes_append_here d k (x : A) : py_key k ∈ classes (dd_append k x d).
Proof.
  rewrite classes_append. case_bool_decide; [done|].
  apply elem_of_app. right. apply list_elem_of_here.
Qed.

Lemma classes_append_mono d k (x : A) c :
  c ∈ classes d -> c ∈ classes (dd_append k x d).
Proof.
  intros H. rewrite classes_append. case_bool_decide; [done|].
  apply elem_of_app. by left.
Qed.

Lemma append_items_snoc d k (cur : list A) x :
  append_items d (k, cur ++ [x]) = dd_append k x (append_items d (k, cur)).
Proof. unfold append_items. simpl. by rewrite foldl_app. Qed.

Lemma append_items_class d k (cur : list A) :
  cur ≠ [] -> py_key k ∈ classes (append_items d (k, cur)).
Proof.
  destruct cur as [|y cur _] using rev_ind; [done|]. intros _.
  rewrite append_items_snoc. apply classes_append_here.
Qed.

(** The two nested loops over the runs of [groupby] do what one loop over
    the elements does. *)
Lemma groupby_go_flat l : forall tgt cur d,
  cur ≠ [] ->
  foldl append_items d (groupby_go tgt cur l)
  = foldl add (append_items d (tgt, cur)) l.
Proof.
  induction l as [|[k x] l IH]; intros tgt cur d Hcur; [done|].
  cbn [groupby_go]. destruct (py_eqb k tgt) eqn:E.
  - rewrite IH by (by destruct cur). rewrite append_items_snoc.
    cbn [foldl]. unfold add at 2. cbn [fst snd]. f_equal.
    apply dd_append_same_class; [by rewrite py_eqb_sym|].
    by apply append_items_class.
  - cbn [foldl]. rewrite IH by done. reflexivity.
Qed.

Lemma groupby_flat l :
  foldl append_items [] (groupby l) = foldl add ([] : list (pyval * list A)) l.
Proof.
  destruct l as [|[k x] l]; [done|]. unfold groupby.
  by rewrite groupby_go_flat.
Qed.

Lemma groupby_go_concat l : forall tgt (cur : list A),
  concat (groupby_go tgt cur l).*2 = cur ++ l.*2.
Proof.
  induction l as [|[k x] l IH]; intros tgt cur; simpl.
  - by rewrite app_nil_r.
  - destruct (py_eqb k tgt); simpl; rewrite IH; [by rewrite <- app_assoc | done].
Qed.

Lemma groupby_go_classes l : forall tgt (cur : list A) c,
  c ∈ classes (groupby_go tgt cur l) ->
  c = py_key tgt \/ c ∈ py_key <$> l.*1.
Proof.
  induction l as [|[k x] l IH]; intros tgt cur c; cbn [groupby_go].
  - rewrite classes_cons. intros H%elem_of_cons. destruct H as [H|H]; [by left|].
    by apply elem_of_nil in H.
  - destruct (py_eqb k tgt) eqn:E.
    + intros H%IH. destruct H as [H|H]; [by left|]. right.
      simpl. by apply list_elem_of_further.
    + rewrite classes_cons. intros H%elem_of_cons.
      destruct H as [H|H]; [by left|]. right. simpl.
      apply IH in H as [H|H]; [rewrite H; apply list_elem_of_here|].
      by apply list_elem_of_further.
Qed.

Lemma gone_not_in k ks :
  forallb (fun k'' => negb (py_eqb k'' k)) ks = true -> py_key k ∉ py_key <$> ks.
Proof.
  induction ks as [|k' ks IH]; simpl; [intros _; apply not_elem_of_nil|].
  intros [H1 H2]%andb_true_iff. apply not_elem_of_cons. split; [|by apply IH].
  apply negb_true_iff, py_eqb_neq in H1. congruence.
Qed.

(** On pre-sorted input the runs have pairwise different keys. *)
Lemma groupby_go_NoDup l : forall tgt (cur : list A),
  contiguous (tgt :: l.*1) = true -> NoDup (classes (groupby_go tgt cur l)).
Proof.
  induction l as [|[k x] l IH]; intros tgt cur Hc.
  - apply NoDup_singleton.
  - cbn [groupby_go]. cbn in Hc. destruct (py_eqb k tgt) eqn:E.
    + apply IH. cbn. apply andb_true_iff in Hc as [H1 H2].
      apply andb_true_iff in H2 as [_ H2]. by rewrite H1, H2.
    + apply andb_true_iff in Hc as [H1 H2]. rewrite classes_cons.
      apply NoDup_cons. split; [|by apply IH].
      intros [H|H]%groupby_go_classes.
      * apply py_eqb_neq in E. congruence.
      * by apply gone_not_in in H1.
Qed.

Lemma groupby_go_nonempty l : forall tgt (cur : list A),
  cur ≠ [] -> Forall (fun e => e.2 ≠ []) (groupby_go tgt cur l).
Proof.
  induction l as [|[k x] l IH]; intros tgt cur Hcur; cbn [groupby_go].
  - by apply Forall_singleton.
  - destruct (py_eqb k tgt); [apply IH; by destruct cur|].
    apply Forall_cons. split; [done | by apply IH].
Qed.

Lemma dd_append_fresh d k (x : A) :
  py_key k ∉ classes d -> dd_append k x d = d ++ [(k, [x])].
Proof.
  induction d as [|[k0 g] d IH]; [done|]. rewrite classes_cons.
  intros [H1 H2]%not_elem_of_cons. cbn [dd_append].
  assert (py_eqb k0 k = false) as -> by (apply py_eqb_neq; congruence).
  simpl. f_equal. by apply IH.
Qed.

Lemma dd_append_last d k g (x : A) :
  py_key k ∉ classes d ->
  dd_append k x (d ++ [(k, g)]) = d ++ [(k, g ++ [x])].
Proof.
  induction d as [|[k0 g0] d IH].
  - intros _. simpl. by rewrite py_eqb_refl.
  - rewrite classes_cons. intros [H1 H2]%not_elem_of_cons. simpl.
    assert (py_eqb k0 k = false) as -> by (apply py_eqb_neq; congruence).
    f_equal. by apply IH.
Qed.

Lemma foldl_append_last d k (xs : list A) : forall g,
  py_key k ∉ classes d ->
  foldl (fun r i => dd_append k i r) (d ++ [(k, g)]) xs = d ++ [(k, g ++ xs)].
Proof.
  induction xs as [|y xs IH]; intros g Hk; cbn [foldl].
  - by rewrite app_nil_r.
  - rewrite dd_append_last by done. rewrite IH by done.
    by rewrite <- app_assoc.
Qed.

Lemma append_items_fresh d k (items : list A) :
  items ≠ [] -> py_key k ∉ classes d ->
  append_items d (k, items) = d ++ [(k, items)].
Proof.
  intros Hne Hk. unfold append_items. destruct items as [|x xs]; [done|].
  cbn [fst snd foldl]. rewrite dd_append_fresh by done.
  by rewrite foldl_append_last.
Qed.

(** Runs with pairwise different keys are stored as they are. *)
Lemma append_items_runs (runs : list (pyval * list A)) : forall d,
  NoDup (classes (d ++ runs)) -> Forall (fun e => e.2 ≠ []) runs ->
  foldl append_items d runs = d ++ runs.
Proof.
  induction runs as [|[k items] runs IH]; intros d Hnd Hne.
  - by rewrite app_nil_r.
  - apply Forall_cons in Hne as [Hne1 Hne]. cbn [foldl].
    rewrite append_items_fresh; [| done |].
    + rewrite IH; [by rewrite <- app_assoc | by rewrite <- app_assoc | done].
    + unfold classes in Hnd. rewrite fmap_app in Hnd.
      apply NoDup_app in Hnd as (_ & Hnd & _). intros Hk.
      apply (Hnd _ Hk). simpl. apply list_elem_of_here.
Qed.
End Runs.

(** The keys that [keyed] computes. *)
Lemma keyed_cons key c (cs : list component) :
  keyed key (c :: cs) =
    match c !! key with
    | Some v =>
        match keyed key cs with
        | Ok kcs => Ok ((v, c) :: kcs)
        | Raise e => Raise e
        end
    | None => Raise (KeyError key)
    end.
Proof.
  unfold keyed, itemgetter. cbn [rmap]. destruct (c !! key); [|done].
  rsimpl. by destruct (rmap _ cs).
Qed.

Lemma keyed_ok key (components : list component) :
  Forall (fun c => is_Some (c !! key)) components ->
  exists kcs, keyed key components = Ok kcs.
Proof.
  induction 1 as [|c cs [v Hv] _ [kcs IH]]; [by exists []|].
  exists ((v, c) :: kcs). by rewrite keyed_cons, Hv, IH.
Qed.

Lemma keyed_spec key (components : list component) : forall kcs,
  keyed key components = Ok kcs ->
  kcs.*2 = components
  /\ kcs.*1 = omap (fun c => c !! key) components
  /\ forall k, (List.filter (fun kx => py_eqb kx.1 k) kcs).*2
               = with_key key k components.
Proof.
  unfold with_key.
  induction components as [|c cs IH]; intros kcs.
  - intros [= <-]. done.
  - rewrite keyed_cons. cbn [List.filter omap list_omap]. unfold has_key at 1.
    destruct (c !! key) as [v|] eqn:Hv; [|done].
    destruct (keyed key cs) as [kcs'|]; [|done].
    intros [= <-]. destruct (IH _ eq_refl) as (H1 & H2 & H3).
    split_and!; [by rewrite fmap_cons, H1 | by rewrite fmap_cons, H2 |].
    intros k. cbn [List.filter fst]. destruct (py_eqb v k);
      [rewrite fmap_cons|]; by rewrite H3.
Qed.

(** [contiguous] says what its name says: between two positions with equal
    keys every key is equal to them. *)
Lemma run_then_gone_spec k ks :
  run_then_gone k ks = true <->
  forall j m b c, j < m -> ks !! j = Some b -> ks !! m = Some c ->
    py_eqb c k = true -> py_eqb b k = true.
Proof.
  induction ks as [|h ks IH]; cbn [run_then_gone].
  - split; [|done]. intros _ j m b c _ H. done.
  - destruct (py_eqb h k) eqn:E.
    + rewrite IH. split.
      * intros H [|j] [|m] b c Hlt Hj Hm Hc; [lia | | lia |].
        -- by injection Hj as <-.
        -- apply (H j m b c); [lia | done..].
      * intros H j m b c Hlt Hj Hm Hc.
        apply (H (S j) (S m) b c); [lia | done..].
    + split.
      * intros H [|j] [|m] b c Hlt Hj Hm Hc; [lia | | lia |].
        -- exfalso. rewrite forallb_forall in H. cbn in Hm.
           apply list_elem_of_lookup_2, list_elem_of_In, H in Hm.
           by rewrite Hc in Hm.
        -- exfalso. rewrite forallb_forall in H. cbn in Hm.
           apply list_elem_of_lookup_2, list_elem_of_In, H in Hm.
           by rewrite Hc in Hm.
      * intros H. apply forallb_forall. intros c Hc.
        apply list_elem_of_In, list_elem_of_lookup in Hc as [m Hm].
        destruct (py_eqb c k) eqn:Ec; [|done].
        assert (py_eqb h k = true) as Hh
          by (apply (H 0 (S m) h c); [lia | done..]).
        congruence.
Qed.

Lemma contiguous_spec ks :
  contiguous ks = true <->
  forall i j m a b c, i < j < m ->
    ks !! i = Some a -> ks !! j = Some b -> ks !! m = Some c ->
    py_eqb a c = true -> py_eqb a b = true.
Proof.
  induction ks as [|k ks IH]; cbn [contiguous].
  - split; [|done]. intros _ i j m a b c _ H. done.
  - rewrite andb_true_iff, run_then_gone_spec, IH. split.
    + intros [H1 H2] [|i] [|j] [|m] a b c Hlt Hi Hj Hm Hac; try lia.
      * injection Hi as <-. rewrite py_eqb_sym.
        apply (H1 j m b c); [lia | done.. |]. by rewrite py_eqb_sym.
      * apply (H2 i j m a b c); [lia | done..].
    + intros H. split.
      * intros j m b c Hlt Hj Hm Hc. rewrite py_eqb_sym.
        apply (H 0 (S j) (S m) k b c); [lia | done.. |]. by rewrite py_eqb_sym.
      * intros i j m a b c Hlt Hi Hj Hm Hac.
        apply (H (S i) (S j) (S m) a b c); [lia | done..].
Qed.

(** What [group_components] returns when it returns, through the single
    loop of [add]. *)
Lemma group_components_inv (components : list component) key groups :
  group_components components key = Ok groups ->
  exists kcs, keyed key components = Ok kcs /\ groups = foldl add [] kcs.
Proof.
  unfold group_components. destruct (keyed key components) as [kcs|]; [|done].
  rsimpl. intros [= <-]. exists kcs. by rewrite groupby_flat.
Qed.

Lemma group_components_NoDup (components : list component) key groups :
  group_components components key = Ok groups -> NoDup (classes groups).
Proof.
  intros (kcs & _ & ->)%group_components_inv.
  apply add_foldl_NoDup, NoDup_nil_2.
Qed.

Lemma group_components_group (components : list component) key groups k g :
  group_components components key = Ok groups -> (k, g) ∈ groups ->
  g ≠ [] /\ g = with_key key k components.
Proof.
  intros Hg Hin. pose proof (group_components_NoDup _ _ _ Hg) as Hnd.
  apply group_components_inv in Hg as (kcs & Hk & ->).
  apply keyed_spec in Hk as (_ & _ & Hf).
  apply (dd_get_elem_of _ _ _ Hnd) in Hin.
  rewrite add_foldl_get in Hin. cbn in Hin. rewrite Hf in Hin.
  destruct (with_key key k components); [done|]. by inversion Hin.
Qed.

Lemma group_components_perm (components : list component) key groups :
  group_components components key = Ok groups ->
  concat groups.*2 ≡ₚ components.
Proof.
  intros (kcs & Hk & ->)%group_components_inv.
  apply keyed_spec in Hk as (<- & _ & _). by rewrite add_foldl_concat.
Qed.

(** The docstring of [group_components]: its input is not sorted by type,
    and its result has one group per type. *)
Example group_components_docstring :
  let c (name type version : string) : component :=
    {[ "name" := VStr name; "type" := VStr type; "version" := VStr version ]} in
  group_components
    [ c "github.com/blang/semver" "go-package" "v3.5.1+incompatible";
      c "github.com/hashicorp/go-syslog" "gomod" "v1.0.0";
      c "encoding/csv" "go-package" "";
      c "tunnel-agent" "yarn" "0.6.0";
      c "github.com/mattn/go-isatty" "gomod" "v0.0.12";
      c "umd" "yarn" "3.0.3" ] "type"
  = Ok [ (VStr "go-package",
          [ c "github.com/blang/semver" "go-package" "v3.5.1+incompatible";
            c "encoding/csv" "go-package" "" ]);
         (VStr "gomod",
          [ c "github.com/hashicorp/go-syslog" "gomod" "v1.0.0";
            c "github.com/mattn/go-isatty" "gomod" "v0.0.12" ]);
         (VStr "yarn",
          [ c "tunnel-agent" "yarn" "0.6.0"; c "umd" "yarn" "3.0.3" ]) ].
Proof. vm_compute. reflexivity. Qed.

(** On input that is not sorted [groupby] yields two runs for one key, and
    the dict brings them together again. *)
Example groupby_runs_are_merged :
  let l := [(VStr "gomod", 1); (VStr "yarn", 2); (VStr "gomod", 3)] in
  groupby l = [(VStr "gomod", [1]); (VStr "yarn", [2]); (VStr "gomod", [3])]
  /\ foldl append_items [] (groupby l)
     = [(VStr "gomod", [1; 3]); (VStr "yarn", [2])].
Proof. vm_compute. done. Qed.

(** C3. On a list of component records that all carry the grouping key and
    in which equal key values are contiguous, [group_components] returns a
    dict whose groups, one after the other, are the input list itself (no
    record lost, none twice), whose keys are pairwise different, and whose
    group for a key holds the records with that key in input order. *)
Theorem group_components_presorted_partition
    (components : list component) (key : string) :
  Forall (fun c => is_Some (c !! key)) components ->
  contiguous (omap (fun c => c !! key) components) = true ->
  exists groups,
    group_components components key = Ok groups
    /\ concat groups.*2 = components
    /\ NoDup (classes groups)
    /\ forall k g, (k, g) ∈ groups -> g ≠ [] /\ g = with_key key k components.
Proof.
  intros Hkeys Hsorted. destruct (keyed_ok _ _ Hkeys) as [kcs Hk].
  assert (group_components components key = Ok (groupby kcs)) as Hg.
  { unfold group_components. rewrite Hk. rsimpl. f_equal.
    destruct (keyed_spec _ _ _ Hk) as (_ & H1 & _). rewrite <- H1 in Hsorted.
    apply (append_items_runs _ []); destruct kcs as [|[k x] kcs];
      try apply NoDup_nil_2; try apply Forall_nil_2.
    - by apply groupby_go_NoDup.
    - by apply groupby_go_nonempty. }
  exists (groupby kcs). split_and!; [done | | |].
  - destruct (keyed_spec _ _ _ Hk) as (<- & _ & _).
    destruct kcs as [|[k x] kcs]; [done|]. unfold groupby.
    by rewrite groupby_go_concat.
  - by eapply group_components_NoDup.
  - intros k g. by eapply group_components_group.
Qed.

Lemma group_components_presorted_partition_witness :
  let a : component := {[ "name" := VStr "semver"; "type" := VStr "gomod" ]} in
  let b : component := {[ "name" := VStr "syslog"; "type" := VStr "gomod" ]} in
  let c : component := {[ "name" := VStr "umd"; "type" := VStr "yarn" ]} in
  exists groups,
    group_components [a; b; c] "type" = Ok groups
    /\ concat groups.*2 = [a; b; c]
    /\ NoDup (classes groups)
    /\ forall k g, (k, g) ∈ groups -> g ≠ [] /\ g = with_key "type" k [a; b; c].
Proof.
  intros a b c.
  apply (group_components_presorted_partition [a; b; c] "type").
  - repeat constructor; vm_compute; eauto.
  - vm_compute. reflexivity.
Defined.

(** C4, as the code has it. [group_components] is a full partition whether
    or not the input is pre-sorted: on every list of records that carry the
    key the dict has pairwise different keys, the group of a key holds all
    the records with that key, contiguous or not, in input order, and the
    groups together hold the records of the input, each as often as the
    input does. *)
Theorem group_components_merges_equal_keys
    (components : list component) (key : string) :
  Forall (fun c => is_Some (c !! key)) components ->
  exists groups,
    group_components components key = Ok groups
    /\ NoDup (classes groups)
    /\ (forall k g, (k, g) ∈ groups -> g ≠ [] /\ g = with_key key k components)
    /\ concat groups.*2 ≡ₚ components.
Proof.
  intros Hkeys. destruct (keyed_ok _ _ Hkeys) as [kcs Hk].
  exists (foldl append_items [] (groupby kcs)).
  assert (group_components components key
          = Ok (foldl append_items [] (groupby kcs))) as Hg.
  { unfold group_components. by rewrite Hk. }
  split_and!; [done | | |].
  - by eapply group_components_NoDup.
  - intros k g. by eapply group_components_group.
  - by eapply group_components_perm.
Qed.

Lemma group_components_merges_equal_keys_witness :
  let a : component := {[ "name" := VStr "semver"; "type" := VStr "gomod" ]} in
  let b : component := {[ "name" := VStr "umd"; "type" := VStr "yarn" ]} in
  let c : component := {[ "name" := VStr "syslog"; "type" := VStr "gomod" ]} in
  contiguous (omap (fun x : component => x !! "type") [a; b; c]) = false
  /\ exists groups,
    group_components [a; b; c] "type" = Ok groups
    /\ NoDup (classes groups)
    /\ (forall k g, (k, g) ∈ groups -> g ≠ [] /\ g = with_key "type" k [a; b; c])
    /\ concat groups.*2 ≡ₚ [a; b; c].
Proof.
  intros a b c. split; [vm_compute; reflexivity|].
  apply (group_components_merges_equal_keys [a; b; c] "type").
  repeat constructor; vm_compute; eauto.
Defined.

(** C4, as stated, fails: there is no input, contiguous or not, for which
    the returned dict has two groups under equal keys. *)
Lemma group_components_no_duplicate_groups :
  ~ exists (components : list component) (key : string) groups i j e1 e2,
      contiguous (omap (fun c => c !! key) components) = false
      /\ group_components components key = Ok groups
      /\ i <> j
      /\ groups !! i = Some e1 /\ groups !! j = Some e2
      /\ py_eqb e1.1 e2.1 = true.
Proof.
  intros (components & key & groups & i & j & e1 & e2
          & _ & Hg & Hij & H1 & H2 & He).
  apply group_components_NoDup in Hg. apply Hij.
  apply (NoDup_lookup _ i j (py_key e1.1) Hg).
  - unfold classes. by rewrite list_lookup_fmap, H1.
  - unfold classes. rewrite list_lookup_fmap, H2. simpl.
    by apply py_eqb_eq in He as ->.
Qed.

(** ** libs/common.py: NVR lists *)

Lemma format_nvr_ok (c : component) s : format_nvr c = Ok s <-> nvr_of c s.
Proof.
  unfold format_nvr, format_field, nvr_of. split.
  - destruct (c !! "name") as [n|]; [|done].
    destruct (c !! "version") as [v|]; [|done].
    destruct (c !! "release") as [r|]; [|done].
    rsimpl. intros [= <-]. by exists n, v, r.
  - intros (n & v & r & -> & -> & -> & ->). done.
Qed.

Lemma format_nvr_raise (c : component) :
  lacks_field c ->
  exists field, format_nvr c = Raise (KeyError field)
                /\ field ∈ ["name"; "version"; "release"].
Proof.
  unfold format_nvr, format_field, lacks_field. intros H.
  destruct (c !! "name") as [n|];
    [|exists "name"; split; [done | repeat constructor]].
  destruct (c !! "version") as [v|];
    [|exists "version"; split; [done | repeat constructor]].
  destruct (c !! "release") as [r|];
    [|exists "release"; split; [done | repeat constructor]].
  destruct H as [H|[H|H]]; discriminate H.
Qed.

Lemma rmap_cons {A B} (f : A -> result B) x l :
  rmap f (x :: l) =
    match f x with
    | Ok y => match rmap f l with Ok ys => Ok (y :: ys) | Raise e => Raise e end
    | Raise e => Raise e
    end.
Proof. cbn [rmap]. destruct (f x); [|done]. rsimpl. by destruct (rmap f l). Qed.

Lemma rmap_format_ok (group : list component) :
  Forall (fun c => ~ lacks_field c) group ->
  exists nvrs, rmap format_nvr group = Ok nvrs /\ Forall2 nvr_of group nvrs.
Proof.
  induction 1 as [|c cs Hc _ (nvrs & IH & IH2)]; [by exists []|].
  assert (exists s, nvr_of c s) as [s Hs].
  { unfold lacks_field, nvr_of in *.
    destruct (c !! "name") as [n|]; [|exfalso; apply Hc; by left].
    destruct (c !! "version") as [v|]; [|exfalso; apply Hc; right; by left].
    destruct (c !! "release") as [r|]; [|exfalso; apply Hc; right; by right].
    eexists. exists n, v, r. split_and!; reflexivity. }
  exists (s :: nvrs). rewrite rmap_cons, (proj2 (format_nvr_ok c s) Hs), IH.
  split; [done | by constructor].
Qed.

Lemma rmap_format_raise (group : list component) :
  Exists lacks_field group ->
  exists field, rmap format_nvr group = Raise (KeyError field)
                /\ field ∈ ["name"; "version"; "release"].
Proof.
  induction 1 as [c cs Hc | c cs _ (field & IH & Hf)]; rewrite rmap_cons.
  - destruct (format_nvr_raise c Hc) as (field & -> & Hf). by exists field.
  - destruct (format_nvr c) as [s|e] eqn:E.
    + rewrite IH. by exists field.
    + destruct (decide (lacks_field c)) as [Hc|Hc].
      * destruct (format_nvr_raise c Hc) as (f' & E' & Hf').
        rewrite E in E'. inversion E'; subst. by exists f'.
      * exfalso. destruct (rmap_format_ok [c]) as (nvrs & Hr & _);
          [by repeat constructor|].
        rewrite rmap_cons, E in Hr. done.
Qed.

(** C7. For the group stored under the requested type,
    [get_nvr_list_from_components] returns, in input order, the string
    name-version-release of each component when all of them carry the three
    fields, and raises [KeyError] naming one of the three fields when a
    component of the group lacks one. *)
Theorem get_nvr_list_from_components_group
    (components : list (pyval * list component)) (comp_type : pyval)
    (group : list component) :
  dd_get comp_type components = Some group ->
  (Forall (fun c => ~ lacks_field c) group ->
   exists nvrs, get_nvr_list_from_components components comp_type = Ok nvrs
                /\ Forall2 nvr_of group nvrs)
  /\ (Exists lacks_field group ->
      exists field,
        get_nvr_list_from_components components comp_type
          = Raise (KeyError field)
        /\ field ∈ ["name"; "version"; "release"]).
Proof.
  intros Hget. unfold get_nvr_list_from_components. rewrite Hget. split.
  - apply rmap_format_ok.
  - apply rmap_format_raise.
Qed.

Lemma get_nvr_list_from_components_group_witness :
  let foo : component :=
    {[ "name" := VStr "foo"; "version" := VStr "1"; "release" := VStr "2" ]} in
  let bar : component := {[ "name" := VStr "bar"; "release" := VStr "2" ]} in
  get_nvr_list_from_components [(VStr "rpm", [foo])] (VStr "rpm")
    = Ok ["foo-1-2"]
  /\ exists field,
       get_nvr_list_from_components [(VStr "rpm", [foo; bar])] (VStr "rpm")
         = Raise (KeyError field)
       /\ field ∈ ["name"; "version"; "release"].
Proof.
  intros foo bar. split; [vm_compute; reflexivity|].
  apply (get_nvr_list_from_components_group
           [(VStr "rpm", [foo; bar])] (VStr "rpm") [foo; bar]).
  - vm_compute. reflexivity.
  - apply Exists_cons_tl, Exists_cons_hd. right. left. vm_compute. reflexivity.
Defined.

(** C10. When the dict of grouped components has no entry for the requested
    type, [get_nvr_list_from_components] raises [TypeError] (the lookup
    gives [None], which the loop cannot iterate); it does not return the
    empty list. *)
Theorem get_nvr_list_from_components_absent_type
    (components : list (pyval * list component)) (comp_type : pyval) :
  py_key comp_type ∉ classes components ->
  dd_get comp_type components = None
  /\ get_nvr_list_from_components components comp_type = Raise TypeError
  /\ get_nvr_list_from_components components comp_type ≠ Ok [].
Proof.
  intros H%dd_get_None. unfold get_nvr_list_from_components. by rewrite H.
Qed.

Lemma get_nvr_list_from_components_absent_type_witness :
  let foo : component :=
    {[ "name" := VStr "foo"; "version" := VStr "1"; "release" := VStr "2" ]} in
  get_nvr_list_from_components [(VStr "rpm", [foo])] (VStr "gomod")
    = Raise TypeError.
Proof.
  intros foo.
  apply (get_nvr_list_from_components_absent_type
           [(VStr "rpm", [foo])] (VStr "gomod")).
  vm_compute. intros H. apply elem_of_cons in H as [H|H]; [discriminate H|].
  by apply elem_of_nil in H.
Defined.

(** ** libs/common.py: MIME types *)

(** C8, as the code has it. When the extension table gives nothing, an
    exception raised by the sniffing is swallowed only when it is
    [TypeError], and then the result is the absent value; any other
    exception leaves [get_mime_type]. *)
Theorem get_mime_type_swallows_only_TypeError
    (guess_type : string -> option string)
    (guess_mime : string -> result (option string))
    (filepath : string) (e : exn) :
  guess_type filepath = None ->
  guess_mime filepath = Raise e ->
  get_mime_type guess_type guess_mime filepath
  = if decide (e = TypeError) then Ok None else Raise e.
Proof.
  intros Ht Hs. unfold get_mime_type. rewrite Ht, Hs. simpl.
  by destruct e.
Qed.

Lemma get_mime_type_swallows_only_TypeError_witness :
  get_mime_type (fun _ => None) (fun _ => Raise TypeError) "" = Ok None.
Proof.
  apply (get_mime_type_swallows_only_TypeError
           (fun _ => None) (fun _ => Raise TypeError) "" TypeError);
    reflexivity.
Defined.

(** C8, as stated, fails: with no table entry for the path and a sniffer
    that cannot open the file, [get_mime_type] raises. *)
Lemma get_mime_type_raises :
  ~ (forall guess_type guess_mime filepath,
       exists r, get_mime_type guess_type guess_mime filepath = Ok r).
Proof.
  intros H.
  destruct (H (fun _ => None) (fun _ => Raise OSError) "/tmp/missing") as [r Hr].
  discriminate Hr.
Qed.

(** ** libs/common.py: source tarballs *)

(** C6 at a source directory with a hidden file at its top: the call
    returns without raising, the archive holds [main.c] only, and the
    directory is removed, [.gitignore] with it. *)
Theorem compress_source_to_tarball_skips_hidden :
  let src := [(".gitignore", File "build"); ("main.c", File "int main;")] in
  let w := {| dirs := {[ "/tmp/src" := src ]}; archives := ∅ |} in
  let '(r, w') :=
    compress_source_to_tarball (fun _ => true) w "/tmp/src.tar.gz" "/tmp/src" in
  r = Ok ()
  /\ archives w' !! "/tmp/src.tar.gz" = Some [("main.c", File "int main;")]
  /\ dirs w' !! "/tmp/src" = None.
Proof. vm_compute. done. Qed.

(** The same slip on an empty source directory: the star stays as it is,
    [tar] fails on it, the pipeline reports the status of [gzip], and the
    directory is removed as after a success. *)
Example compress_source_to_tarball_masks_tar_failure :
  let w := {| dirs := {[ "/tmp/src" := [] ]}; archives := ∅ |} in
  (tar_c [] (glob_star [])).1 = 2
  /\ (compress_source_to_tarball (fun _ => true) w "/tmp/src.tar.gz" "/tmp/src").1
     = Ok ()
  /\ dirs (compress_source_to_tarball (fun _ => true) w
             "/tmp/src.tar.gz" "/tmp/src").2 !! "/tmp/src" = None.
Proof. vm_compute. done. Qed.

(** What holds at every input: a raised exception leaves the directories as
    they were. *)
Lemma compress_source_to_tarball_failure_keeps_dir can_create w dest src e :
  (compress_source_to_tarball can_create w dest src).1 = Raise e ->
  dirs (compress_source_to_tarball can_create w dest src).2 = dirs w.
Proof.
  unfold compress_source_to_tarball, check_call, run_pipeline.
  destruct (dirs w !! src) as [entries|]; [|done].
  destruct (tar_c entries (glob_star entries)) as [st members].
  by destruct (can_create dest).
Qed.

(** ** products/models.py: releases *)

Import Products.

(** A release returned by [add_release] carries the name, version and
    product it was called with. *)
Lemma add_release_fields t self name version notes r :
  (add_release t self name version notes).1 = Ok r ->
  release_name r = name /\ release_version r = version
  /\ release_product r = product_id self.
Proof.
  unfold add_release.
  destruct (List.filter _ (releases t)) as [|r0 [|r1 rest]] eqn:Hf.
  - destruct (existsb _ _); [done|]. simpl. by intros [= <-].
  - simpl. intros [= <-]. simpl.
    assert (In r0 (List.filter (release_matches self name version) (releases t)))
      as Hin by (rewrite Hf; by left).
    apply filter_In in Hin as [_ Hm]. unfold release_matches in Hm.
    apply andb_true_iff in Hm as [Hm Hv]. apply andb_true_iff in Hm as [Hp Hn].
    apply String.eqb_eq in Hn, Hv. by apply Nat.eqb_eq in Hp.
  - done.
Qed.

(** C9 at a name that is not the joint string: [add_release] stores the
    name it is given; nothing derives it from the product and the
    version. *)
Theorem add_release_name_not_derived :
  let rhel := {| product_id := 1; product_name := "rhel" |} in
  let t := {| releases := []; release_seq := 1 |} in
  let '(res, t') := add_release t rhel "foo" "8" "" in
  exists r,
    res = Ok r /\ releases t' = [r]
    /\ release_product r = product_id rhel
    /\ release_name r = "foo"
    /\ joint_name rhel (release_version r) = "rhel-8"
    /\ release_name r ≠ joint_name rhel (release_version r).
Proof.
  vm_compute. eexists. split_and!; [reflexivity.. | discriminate].
Qed.

(** ** products/models.py: tree nodes *)

Section TreeInvariant.
Implicit Types (tb : table) (s : store) (n : TreeNode).

Lemma table_of_set_same t tb s : table_of t (set_table t tb s) = tb.
Proof. by destruct t. Qed.

Lemma product_nodes_set_component tb s :
  product_nodes (set_table ComponentTree tb s) = product_nodes s.
Proof. done. Qed.

Lemma collide_true a b p :
  parent a = Some p -> parent b = Some p -> object_id a = object_id b ->
  collide a b = true.
Proof.
  unfold collide. intros -> -> ->. by rewrite !Nat.eqb_refl.
Qed.

Lemma check_row_unique tb n r :
  check_row ProductTree tb n = true -> r ∈ rows tb ->
  node_id r = node_id n \/ collide r n = false.
Proof.
  unfold check_row. intros [_ H]%andb_true_iff Hr. simpl in H.
  rewrite forallb_forall in H. apply list_elem_of_In in Hr.
  apply H in Hr. apply orb_true_iff in Hr as [Hr|Hr].
  - left. by apply Nat.eqb_eq.
  - right. by apply negb_true_iff.
Qed.

Lemma collide_sym a b : collide a b = collide b a.
Proof.
  unfold collide. destruct (parent a), (parent b); try done.
  by rewrite (Nat.eqb_sym n), (Nat.eqb_sym (object_id a)).
Qed.

Lemma create_inv s name par ct oid :
  table_inv (product_nodes s) ->
  table_inv (product_nodes (create ProductTree s name par ct oid).2).
Proof.
  intros (Hlt & Hnd & Hu). unfold create. cbn [table_of].
  set (n := {| node_id := seq (product_nodes s); node_name := name;
               parent := par; content_type := ct; object_id := oid |}).
  destruct (check_row ProductTree (product_nodes s) n) eqn:Hc; [|done].
  unfold table_inv. cbn [snd set_table product_nodes rows seq]. split_and!.
  - intros r [Hr|Hr%list_elem_of_singleton]%elem_of_app.
    + apply Hlt in Hr. simpl. lia.
    + subst r. simpl. lia.
  - rewrite fmap_app. apply NoDup_app. split_and!; [done| |apply NoDup_singleton].
    intros x (r & -> & Hr)%list_elem_of_fmap Hx%list_elem_of_singleton.
    apply Hlt in Hr. simpl in Hx. lia.
  - intros a b p [Ha|Ha%list_elem_of_singleton]%elem_of_app
                 [Hb|Hb%list_elem_of_singleton]%elem_of_app Hpa Hpb Ho.
    + by eapply Hu.
    + subst b. destruct (check_row_unique _ _ _ Hc Ha) as [H|H]; [done|].
      by rewrite (collide_true a n p) in H.
    + subst a. destruct (check_row_unique _ _ _ Hc Hb) as [H|H]; [done|].
      by rewrite (collide_true b n p) in H.
    + by subst.
Qed.

Lemma save_inv s n :
  table_inv (product_nodes s) ->
  table_inv (product_nodes (save ProductTree s n).2).
Proof.
  intros (Hlt & Hnd & Hu). unfold save. cbn [table_of].
  destruct (has_row (product_nodes s) (node_id n)) eqn:Hh; [|done].
  destruct (check_row ProductTree (product_nodes s) n) eqn:Hc; [|done].
  unfold table_inv. cbn [snd set_table product_nodes rows seq].
  set (f := fun r => if Nat.eqb (node_id r) (node_id n) then n else r).
  assert (forall r, node_id (f r) = node_id r) as Hid.
  { intros r. unfold f. destruct (Nat.eqb (node_id r) (node_id n)) eqn:E; [|done].
    by apply Nat.eqb_eq in E. }
  assert (forall a, a ∈ map f (rows (product_nodes s)) ->
            a = n \/ (a ∈ rows (product_nodes s) /\ node_id a ≠ node_id n))
    as Hcase.
  { intros a (r & -> & Hr)%list_elem_of_fmap. unfold f.
    destruct (Nat.eqb (node_id r) (node_id n)) eqn:E; [by left|].
    right. split; [done|]. by apply Nat.eqb_neq. }
  split_and!.
  - intros a (r & -> & Hr)%list_elem_of_fmap. rewrite Hid. by apply Hlt.
  - change (map f (rows (product_nodes s))) with (f <$> rows (product_nodes s)).
    rewrite <- list_fmap_compose.
    rewrite (list_fmap_ext (node_id ∘ f) node_id _); [done|].
    intros _ r _. apply Hid.
  - intros a b p Ha Hb Hpa Hpb Ho.
    destruct (Hcase a Ha) as [->|[Ha' Hna]], (Hcase b Hb) as [->|[Hb' Hnb]].
    + done.
    + destruct (check_row_unique _ _ _ Hc Hb') as [H|H]; [done|].
      by rewrite (collide_true b n p) in H.
    + destruct (check_row_unique _ _ _ Hc Ha') as [H|H]; [done|].
      by rewrite (collide_true a n p) in H.
    + by eapply Hu.
Qed.

Lemma filter_fmap_sublist {X Y} (f : X -> bool) (g : X -> Y) l :
  (g <$> List.filter f l) `sublist_of` (g <$> l).
Proof.
  induction l as [|x l IH]; simpl; [constructor|].
  destruct (f x); simpl; by constructor.
Qed.

Lemma delete_inv s id :
  table_inv (product_nodes s) ->
  table_inv (product_nodes (delete_node ProductTree s id)).
Proof.
  intros (Hlt & Hnd & Hu). unfold delete_node, table_inv.
  cbn [table_of set_table product_nodes rows seq].
  set (keep := fun r => negb (bool_decide (node_id r ∈ _))).
  assert (forall r, r ∈ List.filter keep (rows (product_nodes s)) ->
            r ∈ rows (product_nodes s)) as Hsub.
  { intros r Hr%list_elem_of_In. apply filter_In in Hr as [Hr _].
    by apply list_elem_of_In. }
  split_and!.
  - intros r Hr. by apply Hlt, Hsub.
  - eapply sublist_NoDup; [done | apply filter_fmap_sublist].
  - intros a b p Ha Hb. apply Hu; by apply Hsub.
Qed.

Lemma step_inv s s' :
  step s s' -> table_inv (product_nodes s) -> table_inv (product_nodes s').
Proof.
  intros [[] ? name par ct oid | [] ? n | [] ? id] H.
  - by apply create_inv.
  - unfold create. cbn [table_of]. by destruct (check_row _ _ _).
  - by apply save_inv.
  - unfold save. cbn [table_of].
    destruct (has_row _ _); [|done]. by destruct (check_row _ _ _).
  - by apply delete_inv.
  - done.
Qed.

Lemma reachable_inv s : reachable s -> table_inv (product_nodes s).
Proof.
  unfold reachable. revert s.
  apply (rtc_ind_r (fun s => table_inv (product_nodes s))).
  - split_and!; [|apply NoDup_nil_2|]; intros *; by intros ?%elem_of_nil.
  - intros s s' _ Hstep IH. by eapply step_inv.
Qed.
End TreeInvariant.

(** C5, as the code has it. In every state the store reaches, the product
    tree has no two rows below one parent with equal [object_id]; the
    constraint is declared for that tree only. *)
Theorem product_tree_child_unique (s : store) :
  reachable s -> child_unique (product_nodes s).
Proof.
  intros (Hlt & Hnd & Hu)%reachable_inv i j a b p Hi Hj Hpa Hpb Ho.
  apply (NoDup_lookup _ i j (node_id a) Hnd).
  - by rewrite list_lookup_fmap, Hi.
  - rewrite list_lookup_fmap, Hj. simpl. f_equal. symmetry.
    apply (Hu a b p); [| |done..]; apply list_elem_of_lookup; eauto.
Qed.

Lemma product_tree_child_unique_witness :
  child_unique
    (product_nodes
       (create ProductTree
          (create ProductTree empty_store "rhel" None 7 1).2
          "rhel-8" (Some 1) 8 1).2).
Proof.
  apply product_tree_child_unique.
  eapply rtc_l; [apply step_create|]. eapply rtc_l; [apply step_create|].
  apply rtc_refl.
Defined.

(** C5, as stated, fails on the component tree: two creations below one
    parent with one [object_id] are both accepted. *)
Lemma component_tree_not_sibling_unique :
  ~ (forall s, reachable s ->
       sibling_unique (product_nodes s) /\ sibling_unique (component_nodes s)).
Proof.
  intros H.
  set (s1 := (create ComponentTree empty_store "container" None 9 1).2).
  set (s2 := (create ComponentTree s1 "libfoo" (Some 1) 9 5).2).
  set (s3 := (create ComponentTree s2 "libfoo" (Some 1) 9 5).2).
  assert (reachable s3) as Hr.
  { eapply rtc_l; [apply step_create|]. eapply rtc_l; [apply step_create|].
    eapply rtc_l; [apply step_create|]. apply rtc_refl. }
  destruct (H s3 Hr) as [_ Hc].
  specialize (Hc 1 2 _ _ eq_refl eq_refl eq_refl eq_refl). discriminate Hc.
Qed.

(** ** packages/serializers.py *)

Import Serializers.

Lemma filter_none {X} (f : X -> bool) (l : list X) :
  (forall x, x ∈ l -> f x = false) -> List.filter f l = [].
Proof.
  induction l as [|x l IH]; intros H; [done|]. simpl.
  rewrite (H x) by apply list_elem_of_here. apply IH. intros y Hy.
  apply H. by apply list_elem_of_further.
Qed.

Lemma release_get_unknown w name :
  (forall r, r ∈ release_rows w -> release_name r ≠ name) ->
  release_get w name = Raise DoesNotExist.
Proof.
  intros H. unfold release_get. rewrite filter_none; [done|].
  intros r Hr. apply String.eqb_neq. by apply H.
Qed.

(** C2. When the [product_release] of a batch names a release that no row
    of the store carries, validation raises the error of
    [release_validator], and the submission ends with that error in the
    state it started from: no message is sent and no Task record is
    created. *)
Theorem submit_import_unknown_release
    (uuid : nat -> string) (w : world) (data : validated_data)
    (user_id : nat) (name : string) :
  product_release data = Some (Some name) ->
  (forall r, r ∈ release_rows w -> release_name r ≠ name) ->
  is_valid w data
    = Raise (ValidationError ("Non-existent product release: " +:+ name))
  /\ submit_import uuid w data user_id
     = (Raise (ValidationError ("Non-existent product release: " +:+ name)), w).
Proof.
  intros Hpr Hnone.
  assert (is_valid w data
          = Raise (ValidationError ("Non-existent product release: " +:+ name)))
    as Hv.
  { unfold is_valid, validate_product_release, release_validator.
    by rewrite Hpr, release_get_unknown. }
  split; [done|]. unfold submit_import. by rewrite Hv.
Qed.

Lemma submit_import_unknown_release_witness :
  let w := {| release_rows :=
                [{| release_id := 1; release_product := 1;
                    release_version := "8"; release_name := "rhel-8";
                    release_notes := "" |}];
              tasks := []; task_seq := 1; sent := [] |} in
  let data := {| package_nvrs := ["a-1-1"; "b-1-1"]; license_scan := None;
                 copyright_scan := None; srpm_dir := None;
                 product_release := Some (Some "nope") |} in
  is_valid w data
    = Raise (ValidationError "Non-existent product release: nope")
  /\ submit_import pretty w data 7
     = (Raise (ValidationError "Non-existent product release: nope"), w).
Proof.
  intros w data.
  apply (submit_import_unknown_release pretty w data 7 "nope").
  - reflexivity.
  - intros r Hr. apply list_elem_of_singleton in Hr. subst r. simpl.
    discriminate.
Defined.

(** A release that exists lets the same batch through. *)
Example submit_import_known_release :
  let w := {| release_rows :=
                [{| release_id := 1; release_product := 1;
                    release_version := "8"; release_name := "rhel-8";
                    release_notes := "" |}];
              tasks := []; task_seq := 1; sent := [] |} in
  let data := {| package_nvrs := ["a-1-1"; "b-1-1"]; license_scan := None;
                 copyright_scan := None; srpm_dir := None;
                 product_release := Some (Some "rhel-8") |} in
  let '(res, w') := submit_import pretty w data 7 in
  res = Ok {[ "a-1-1" := {[ "task_id" := 1 ]}; "b-1-1" := {[ "task_id" := 2 ]} ]}
  /\ task_id <$> tasks w' = [1; 2]
  /\ meta_id <$> tasks w' = ["0"; "1"].
Proof. vm_compute. done. Qed.

Lemma deepcopy_id (d : pydict) : deepcopy d = d.
Proof.
  unfold deepcopy. apply map_eq. intros k. rewrite lookup_fmap.
  destruct (d !! k) as [[]|]; reflexivity.
Qed.

Lemma get_task_params_no_nvr data : get_task_params data !! "package_nvr" = None.
Proof.
  unfold get_task_params.
  destruct (product_release data) as [[r|]|];
    [destruct (py_truthy (VStr r))| |];
    destruct (srpm_dir data); by simplify_map_eq.
Qed.

Lemma get_tasks_params_ok data :
  get_tasks_params data
  = Ok ((fun nvr => (nvr, item_params data nvr)) <$> package_nvrs data).
Proof.
  unfold get_tasks_params, item_params.
  induction (package_nvrs data) as [|nvr nvrs IH]; [done|].
  rewrite rmap_cons, IH. unfold dict_package_nvr.
  by rewrite get_task_params_no_nvr.
Qed.

Section ForkFacts.
Variable uuid : nat -> string.
Variables (data : validated_data) (user_id : nat).

Lemma fork_foldl nvrs : forall result w,
  foldl (fork_one uuid user_id get_task_flow) (result, w)
        ((fun nvr => (nvr, item_params data nvr)) <$> nvrs)
  = (result_from (task_seq w) nvrs result,
     {| release_rows := release_rows w;
        tasks := tasks w ++ tasks_from uuid data user_id (task_seq w) (List.length (sent w)) nvrs;
        task_seq := task_seq w + List.length nvrs;
        sent := sent w ++ messages_from uuid data user_id (List.length (sent w)) nvrs |}).
Proof.
  induction nvrs as [|nvr nvrs IH]; intros result w.
  - destruct w. cbn. by rewrite !app_nil_r, Nat.add_0_r.
  - rewrite fmap_cons. cbn [foldl]. unfold fork_one at 2.
    cbn [send_task task_create msg_task_id task_id release_rows tasks
         task_seq sent].
    rewrite IH.
    cbn [release_rows tasks task_seq sent tasks_from messages_from
         result_from List.length].
    rewrite length_app. cbn [List.length].
    rewrite Nat.add_1_r, <- !app_assoc, Nat.add_succ_r. reflexivity.
Qed.

Lemma tasks_from_lookup nvrs : forall seq0 sent0 i nvr,
  nvrs !! i = Some nvr ->
  tasks_from uuid data user_id seq0 sent0 nvrs !! i = Some (task_at uuid data user_id (seq0 + i) (sent0 + i) nvr).
Proof.
  induction nvrs as [|x nvrs IH]; intros seq0 sent0 [|i] nvr H; try done.
  - injection H as ->. by rewrite !Nat.add_0_r.
  - cbn. rewrite (IH _ _ _ _ H). by rewrite !Nat.add_succ_r.
Qed.

Lemma messages_from_lookup nvrs : forall sent0 i nvr,
  nvrs !! i = Some nvr ->
  messages_from uuid data user_id sent0 nvrs !! i = Some (message_at uuid data user_id (sent0 + i) nvr).
Proof.
  induction nvrs as [|x nvrs IH]; intros sent0 [|i] nvr H; try done.
  - injection H as ->. by rewrite !Nat.add_0_r.
  - cbn. rewrite (IH _ _ _ H). by rewrite !Nat.add_succ_r.
Qed.

Lemma tasks_from_length nvrs : forall seq0 sent0,
  List.length (tasks_from uuid data user_id seq0 sent0 nvrs) = List.length nvrs.
Proof. induction nvrs; intros; cbn; [done | by f_equal]. Qed.

Lemma messages_from_length nvrs : forall sent0,
  List.length (messages_from uuid data user_id sent0 nvrs) = List.length nvrs.
Proof. induction nvrs; intros; cbn; [done | by f_equal]. Qed.

Lemma tasks_from_meta nvrs : forall seq0 sent0 i t,
  tasks_from uuid data user_id seq0 sent0 nvrs !! i = Some t -> meta_id t = uuid (sent0 + i).
Proof.
  intros seq0 sent0 i t H.
  destruct (nvrs !! i) as [nvr|] eqn:E.
  - rewrite (tasks_from_lookup _ _ _ _ _ E) in H. by injection H as <-.
  - apply lookup_ge_None in E. rewrite <- (tasks_from_length _ seq0 sent0) in E.
    apply lookup_ge_None in E. congruence.
Qed.

Lemma result_from_other nvrs : forall seq0 result k,
  k ∉ nvrs -> result_from seq0 nvrs result !! k = result !! k.
Proof.
  induction nvrs as [|x nvrs IH]; intros seq0 result k Hk; [done|].
  apply not_elem_of_cons in Hk as [Hne Hk]. cbn. rewrite IH by done.
  by rewrite lookup_insert_ne.
Qed.

Lemma result_from_lookup nvrs : forall seq0 result i nvr,
  NoDup nvrs -> nvrs !! i = Some nvr ->
  result_from seq0 nvrs result !! nvr = Some {["task_id" := seq0 + i]}.
Proof.
  induction nvrs as [|x nvrs IH]; intros seq0 result [|i] nvr Hnd H; try done.
  - injection H as ->. apply NoDup_cons in Hnd as [Hx _]. cbn.
    rewrite result_from_other by done.
    by rewrite lookup_insert_eq, Nat.add_0_r.
  - apply NoDup_cons in Hnd as [_ Hnd]. cbn.
    rewrite (IH _ _ _ _ Hnd H). by rewrite Nat.add_succ_r.
Qed.

Lemma result_from_dom nvrs : forall seq0 result,
  dom (result_from seq0 nvrs result) = list_to_set nvrs ∪ dom result.
Proof.
  induction nvrs as [|x nvrs IH]; intros seq0 result; cbn.
  - by rewrite union_empty_l_L.
  - rewrite IH, dom_insert_L.
    by rewrite (assoc_L (∪)), (comm_L (∪) (list_to_set nvrs)).
Qed.
End ForkFacts.

(** C1, as the code has it. For every batch, [fork_import_tasks] returns a
    result and adds to the store one Task record per item, in order, and
    one message per item; the message of an item carries a deep copy of the
    shared parameters merged with the item's key, plus the owner id; the
    Task record carries the correlation id of that message, and the
    correlation ids of the new records are pairwise different when the
    worker gives fresh ids. The result has the item keys as its keys; when
    the keys of the batch are pairwise different it has one entry per item
    and maps each key to the id of its Task record. *)
Theorem fork_import_tasks_one_task_per_item
    (uuid : nat -> string) (w : world) (data : validated_data) (user_id : nat) :
  (forall i j, uuid i = uuid j -> i = j) ->
  let nvrs := package_nvrs data in
  let new_tasks :=
    tasks_from uuid data user_id (task_seq w) (List.length (sent w)) nvrs in
  let new_messages :=
    messages_from uuid data user_id (List.length (sent w)) nvrs in
  exists result,
    fork_import_tasks uuid w data user_id
    = (Ok result,
       {| release_rows := release_rows w;
          tasks := tasks w ++ new_tasks;
          task_seq := task_seq w + List.length nvrs;
          sent := sent w ++ new_messages |})
    /\ List.length new_tasks = List.length nvrs
    /\ List.length new_messages = List.length nvrs
    /\ (forall i nvr, nvrs !! i = Some nvr ->
          new_tasks !! i
          = Some {| task_id := task_seq w + i;
                    owner_id := user_id;
                    meta_id := uuid (List.length (sent w) + i);
                    task_flow := "flow.tasks.flow_default";
                    task_params :=
                      <["package_nvr" := VStr nvr]> (get_task_params data) |}
          /\ new_messages !! i
             = Some {| msg_task_id := uuid (List.length (sent w) + i);
                       msg_name := "flow.tasks.flow_default";
                       msg_args :=
                         [<["owner_id" := VInt (Z.of_nat user_id)]>
                            (deepcopy (<["package_nvr" := VStr nvr]>
                                         (get_task_params data)))] |})
    /\ NoDup (meta_id <$> new_tasks)
    /\ dom result = list_to_set nvrs
    /\ (NoDup nvrs ->
        size result = List.length nvrs
        /\ forall i nvr, nvrs !! i = Some nvr ->
             result !! nvr = Some {["task_id" := task_seq w + i]}).
Proof.
  intros Hinj nvrs new_tasks new_messages.
  exists (result_from (task_seq w) nvrs ∅). split_and!.
  - unfold fork_import_tasks. rewrite get_tasks_params_ok.
    by rewrite fork_foldl.
  - apply tasks_from_length.
  - apply messages_from_length.
  - intros i nvr H. split.
    + apply (tasks_from_lookup uuid data user_id _ _ _ _ _ H).
    + apply (messages_from_lookup uuid data user_id _ _ _ _ H).
  - apply NoDup_alt. intros i j m Hi Hj.
    rewrite list_lookup_fmap in Hi, Hj.
    destruct (new_tasks !! i) as [ti|] eqn:Ei; [|done].
    destruct (new_tasks !! j) as [tj|] eqn:Ej; [|done].
    apply tasks_from_meta in Ei, Ej. simpl in Hi, Hj.
    assert (uuid (List.length (sent w) + i) = uuid (List.length (sent w) + j))
      as Hu by congruence.
    apply Hinj in Hu. lia.
  - rewrite result_from_dom, dom_empty_L. by rewrite union_empty_r_L.
  - intros Hnd. split.
    + rewrite <- size_dom, result_from_dom, dom_empty_L, union_empty_r_L.
      by apply size_list_to_set.
    + intros i nvr H. by apply result_from_lookup.
Qed.

Lemma fork_import_tasks_one_task_per_item_witness :
  let w := {| release_rows := []; tasks := []; task_seq := 1; sent := [] |} in
  let data := {| package_nvrs := ["a"; "b"]; license_scan := Some true;
                 copyright_scan := None; srpm_dir := None;
                 product_release := None |} in
  exists result,
    (fork_import_tasks pretty w data 7).1 = Ok result
    /\ size result = 2
    /\ result !! "a" = Some {["task_id" := 1]}
    /\ result !! "b" = Some {["task_id" := 2]}
    /\ NoDup (meta_id <$> tasks (fork_import_tasks pretty w data 7).2).
Proof.
  intros w data.
  destruct (fork_import_tasks_one_task_per_item pretty w data 7)
    as (result & Hf & _ & _ & _ & Hmeta & _ & Hres).
  { intros i j H. by apply (inj pretty) in H. }
  assert (NoDup ["a"; "b"]) as Hnd.
  { apply NoDup_cons. split; [|apply NoDup_singleton].
    intros H%list_elem_of_singleton. discriminate H. }
  destruct (Hres Hnd) as [Hsize Hlook].
  exists result. rewrite Hf. split_and!.
  - reflexivity.
  - exact Hsize.
  - exact (Hlook 0 "a" eq_refl).
  - exact (Hlook 1 "b" eq_refl).
  - exact Hmeta.
Defined.

(** C1, as stated, fails: a batch of two items with one key gets two Task
    records, and the result has a single entry, which holds the id of the
    second. *)
Lemma fork_import_tasks_repeated_key :
  let w := {| release_rows := []; tasks := []; task_seq := 1; sent := [] |} in
  let data := {| package_nvrs := ["a"; "a"]; license_scan := Some true;
                 copyright_scan := None; srpm_dir := None;
                 product_release := None |} in
  let '(res, w') := fork_import_tasks pretty w data 7 in
  task_id <$> tasks w' = [1; 2]
  /\ exists result,
       res = Ok result /\ size result = 1 /\ size result ≠ 2
       /\ result !! "a" = Some {["task_id" := 2]}.
Proof.
  vm_compute. split; [reflexivity|]. eexists. split; [reflexivity|].
  split_and!; [reflexivity | discriminate | reflexivity].
Qed.

(** * Further properties *)

(** ** libs/common.py *)

Lemma keyed_missing key (components : list component) :
  Exists (fun c => c !! key = None) components ->
  keyed key components = Raise (KeyError key).
Proof.
  induction 1 as [c cs Hc | c cs _ IH]; rewrite keyed_cons.
  - by rewrite Hc.
  - rewrite IH. by destruct (c !! key).
Qed.

(** X1. A component without the grouping key makes [group_components]
    raise [KeyError] for that key, wherever the component stands in the
    list. *)
Theorem group_components_missing_key (components : list component) key :
  Exists (fun c => c !! key = None) components ->
  group_components components key = Raise (KeyError key).
Proof.
  intros H. unfold group_components. by rewrite keyed_missing.
Qed.

Lemma group_components_missing_key_witness :
  let a : component := {[ "name" := VStr "semver"; "type" := VStr "gomod" ]} in
  let b : component := {[ "name" := VStr "umd" ]} in
  group_components [a; b] "type" = Raise (KeyError "type").
Proof.
  intros a b. apply (group_components_missing_key [a; b] "type").
  apply Exists_cons_tl, Exists_cons_hd. vm_compute. reflexivity.
Defined.

(** X2. Looking a key value up in the dict that [group_components] returns
    gives the records of the input with that key, in input order, and
    nothing for a value no record has. *)
Theorem group_components_lookup (components : list component) key groups v :
  group_components components key = Ok groups ->
  dd_get v groups =
    match with_key key v components with
    | [] => None
    | g => Some g
    end.
Proof.
  intros (kcs & Hk & ->)%group_components_inv.
  apply keyed_spec in Hk as (_ & _ & Hf).
  rewrite add_foldl_get. cbn. rewrite Hf.
  by destruct (with_key key v components).
Qed.


Lemma group_components_lookup_witness :
  let a : component := {[ "name" := VStr "semver"; "type" := VStr "gomod" ]} in
  let b : component := {[ "name" := VStr "umd"; "type" := VStr "yarn" ]} in
  let c : component := {[ "name" := VStr "syslog"; "type" := VStr "gomod" ]} in
  dd_get (VStr "gomod")
    [(VStr "gomod", [a; c]); (VStr "yarn", [b])] = Some [a; c].
Proof.
  intros a b c.
  rewrite (group_components_lookup [a; b; c] "type" _ (VStr "gomod"));
    vm_compute; reflexivity.
Defined.

Lemma add_foldl_classes {A} (l : list (pyval * A)) : forall d,
  classes (foldl add d l) = classes d ++ first_seen (classes d) l.*1.
Proof.
  induction l as [|[k x] l IH]; intros d; cbn [foldl fmap list_fmap first_seen].
  - by rewrite app_nil_r.
  - rewrite IH. unfold add. cbn [fst snd]. rewrite classes_append.
    case_bool_decide; [done|]. by rewrite <- app_assoc.
Qed.

(** X3. The keys of the returned dict stand in the order in which the
    input shows each key value first. *)
Theorem group_components_key_order (components : list component) key groups :
  group_components components key = Ok groups ->
  classes groups = first_seen [] (omap (fun c => c !! key) components).
Proof.
  intros (kcs & Hk & ->)%group_components_inv.
  apply keyed_spec in Hk as (_ & <- & _). by rewrite add_foldl_classes.
Qed.

Lemma group_components_key_order_witness :
  let a : component := {[ "name" := VStr "semver"; "type" := VStr "gomod" ]} in
  let b : component := {[ "name" := VStr "umd"; "type" := VStr "yarn" ]} in
  let c : component := {[ "name" := VStr "syslog"; "type" := VStr "gomod" ]} in
  classes [(VStr "yarn", [b]); (VStr "gomod", [a; c])]
  = [VStr "yarn"; VStr "gomod"].
Proof.
  intros a b c.
  rewrite (group_components_key_order [b; a; c] "type");
    vm_compute; reflexivity.
Defined.

(** X4. [get_nvr_list_from_components] on the dict of [group_components]:
    for a type that some record has, the result is what formatting the
    records of that type gives, in input order, sorted input or not; for a
    type no record has it is [TypeError]. *)
Theorem nvr_list_of_grouped (components : list component) key groups t :
  group_components components key = Ok groups ->
  get_nvr_list_from_components groups t =
    match with_key key t components with
    | [] => Raise TypeError
    | g => rmap format_nvr g
    end.
Proof.
  intros (kcs & Hk & ->)%group_components_inv.
  apply keyed_spec in Hk as (_ & _ & Hf).
  unfold get_nvr_list_from_components. rewrite add_foldl_get. cbn.
  rewrite Hf. by destruct (with_key key t components).
Qed.

Lemma nvr_list_of_grouped_witness :
  let c (name type : string) : component :=
    {[ "name" := VStr name; "type" := VStr type;
       "version" := VStr "1"; "release" := VStr "2" ]} in
  match group_components [c "a" "rpm"; c "b" "gomod"; c "c" "rpm"] "type" with
  | Ok groups =>
      get_nvr_list_from_components groups (VStr "rpm") = Ok ["a-1-2"; "c-1-2"]
      /\ get_nvr_list_from_components groups (VStr "yarn") = Raise TypeError
  | Raise _ => False
  end.
Proof.
  intros c.
  destruct (group_components [c "a" "rpm"; c "b" "gomod"; c "c" "rpm"] "type")
    as [groups|e] eqn:Hg; [|vm_compute in Hg; discriminate Hg].
  split.
  - rewrite (nvr_list_of_grouped _ "type" groups (VStr "rpm") Hg).
    vm_compute. reflexivity.
  - rewrite (nvr_list_of_grouped _ "type" groups (VStr "yarn") Hg).
    vm_compute. reflexivity.
Defined.

(** X5. [get_mime_type] raises only what the sniffing raised after the
    extension table gave nothing, and never [TypeError]. *)
Theorem get_mime_type_raise_origin
    (guess_type : string -> option string)
    (guess_mime : string -> result (option string))
    (filepath : string) (e : exn) :
  get_mime_type guess_type guess_mime filepath = Raise e ->
  not_mime (guess_type filepath) = true
  /\ guess_mime filepath = Raise e
  /\ e ≠ TypeError.
Proof.
  unfold get_mime_type. destruct (not_mime (guess_type filepath)); [|done].
  destruct (guess_mime filepath) as [m|e']; [done|].
  destruct e'; try done; by intros [= <-].
Qed.

Lemma get_mime_type_raise_origin_witness :
  get_mime_type (fun _ => None) (fun _ => Raise OSError) "/tmp/missing"
    = Raise OSError
  /\ OSError ≠ TypeError.
Proof.
  split; [reflexivity|].
  exact (proj2 (proj2 (get_mime_type_raise_origin
           (fun _ => None) (fun _ => Raise OSError) "/tmp/missing" OSError
           eq_refl))).
Defined.








Section CreateDirFacts.
Variable rmtree_leaves :
string -> list (string * node) -> option (list (string * node)).
Variable can_make : string -> bool.



End CreateDirFacts.



(** ** products/models.py *)

Lemma NoDup_fmap_eq {X Y} (f : X -> Y) (l : list X) a b :
  NoDup (f <$> l) -> a ∈ l -> b ∈ l -> f a = f b -> a = b.
Proof.
  intros Hnd [i Hi]%list_elem_of_lookup [j Hj]%list_elem_of_lookup Hf.
  assert (i = j) as ->.
  { apply (NoDup_lookup _ i j (f a) Hnd); rewrite list_lookup_fmap.
    - by rewrite Hi.
    - rewrite Hj. simpl. by rewrite Hf. }
  congruence.
Qed.

Lemma filter_single {X} (f : X -> bool) (l : list X) r :
  NoDup l -> r ∈ l -> f r = true ->
  (forall x, x ∈ l -> f x = true -> x = r) ->
  List.filter f l = [r].
Proof.
  induction l as [|x l IH]; intros Hnd Hr Hf Hu; [by apply elem_of_nil in Hr|].
  apply NoDup_cons in Hnd as [Hx Hnd]. cbn [List.filter].
  destruct (f x) eqn:Efx.
  - assert (x = r) as -> by (apply Hu; [apply list_elem_of_here | done]).
    f_equal. apply filter_none. intros y Hy.
    destruct (f y) eqn:Efy; [|done].
    assert (y = r) as -> by (apply Hu; [by apply list_elem_of_further | done]).
    done.
  - apply IH; [done | | done |].
    + apply elem_of_cons in Hr as [->|Hr]; [congruence | done].
    + intros y Hy. apply Hu. by apply list_elem_of_further.
Qed.

Lemma existsb_false {X} (f : X -> bool) (l : list X) :
  existsb f l = false <-> forall x, x ∈ l -> f x = false.
Proof.
  induction l as [|x l IH]; cbn [existsb].
  - split; [|done]. intros _ y Hy. by apply elem_of_nil in Hy.
  - rewrite orb_false_iff, IH. split.
    + intros [H1 H2] y [->|Hy]%elem_of_cons; [done | by apply H2].
    + intros H. split; [apply H, list_elem_of_here|].
      intros y Hy. by apply H, list_elem_of_further.
Qed.

Lemma release_matches_iff self name version r :
  release_matches self name version r = true <->
  release_product r = product_id self /\ release_name r = name
  /\ release_version r = version.
Proof.
  unfold release_matches.
  rewrite !andb_true_iff, Nat.eqb_eq, !String.eqb_eq. tauto.
Qed.

Lemma same_product_version_iff self version r :
  same_product_version self version r = true <->
  release_product r = product_id self /\ release_version r = version.
Proof.
  unfold same_product_version. by rewrite andb_true_iff, Nat.eqb_eq, String.eqb_eq.
Qed.

Section ReleaseFacts.
Variables (self : Product) (name version : string).

Lemma add_release_keeps_inv t notes :
release_inv t -> release_inv (add_release t self name version notes).2.
Proof.
intros (Hlt & Hnd & Hu). unfold add_release.
destruct (List.filter _ (releases t)) as [|r [|r1 rest]] eqn:Hf.
- destruct (existsb _ _) eqn:Hex; [done|].
  rewrite existsb_false in Hex. unfold release_inv.
  cbn [snd releases release_seq].
  set (n := {| release_id := release_seq t |}).
  assert (forall a, a ∈ releases t ->
            release_product a = release_product n ->
            release_version a = release_version n -> False) as Hnew.
  { intros a Ha Hp Hv. apply Hex in Ha.
    assert (same_product_version self version a = true)
      by by apply same_product_version_iff.
    congruence. }
  split_and!.
  + intros a [Ha|Ha%list_elem_of_singleton]%elem_of_app.
    * apply Hlt in Ha. lia.
    * subst a. simpl. lia.
  + rewrite fmap_app. apply NoDup_app. split_and!; [done| |apply NoDup_singleton].
    intros x (a & -> & Ha)%list_elem_of_fmap Hx%list_elem_of_singleton.
    apply Hlt in Ha. simpl in Hx. lia.
  + intros a b [Ha|Ha%list_elem_of_singleton]%elem_of_app
               [Hb|Hb%list_elem_of_singleton]%elem_of_app Hp Hv.
    * by apply Hu.
    * subst b. by destruct (Hnew a).
    * subst a. by destruct (Hnew b).
    * by subst.
- assert (r ∈ releases t) as Hr.
  { apply list_elem_of_In.
    apply (proj1 (filter_In (release_matches self name version) r (releases t))).
    rewrite Hf. by left. }
  set (f := fun x => if Nat.eqb (release_id x) (release_id r)
                     then set_notes notes r else x).
  assert (forall x, x ∈ releases t ->
            release_id (f x) = release_id x
            /\ release_product (f x) = release_product x
            /\ release_version (f x) = release_version x) as Hfx.
  { intros x Hx. unfold f. destruct (Nat.eqb _ _) eqn:E; [|done].
    apply Nat.eqb_eq in E.
    by rewrite (NoDup_fmap_eq release_id _ x r Hnd Hx Hr E). }
  unfold release_inv. cbn [snd releases release_seq]. fold f.
  change (map f (releases t)) with (f <$> releases t). split_and!.
  + intros a (x & -> & Hx)%list_elem_of_fmap.
    destruct (Hfx x Hx) as (-> & _). by apply Hlt.
  + rewrite <- list_fmap_compose.
    rewrite (list_fmap_ext (release_id ∘ f) release_id (releases t) );
      [done|]. intros i x Hx. apply Hfx. by eapply list_elem_of_lookup_2.
  + intros a b (x & -> & Hx)%list_elem_of_fmap (y & -> & Hy)%list_elem_of_fmap.
    destruct (Hfx x Hx) as (-> & -> & ->), (Hfx y Hy) as (-> & -> & ->).
    by apply Hu.
- done.
Qed.

Lemma add_release_member t notes r t1 :
release_inv t ->
add_release t self name version notes = (Ok r, t1) -> r ∈ releases t1.
Proof.
intros (Hlt & Hnd & Hu). unfold add_release.
destruct (List.filter _ (releases t)) as [|r0 [|r1 rest]] eqn:Hf.
- destruct (existsb _ _); [done|]. intros [= <- <-]. cbn.
  apply elem_of_app. right. apply list_elem_of_here.
- intros [= <- <-]. cbn.
  assert (r0 ∈ releases t) as Hr.
  { apply list_elem_of_In.
    apply (proj1 (filter_In (release_matches self name version) r0 (releases t))).
    rewrite Hf. by left. }
  apply list_elem_of_fmap. exists r0. by rewrite Nat.eqb_refl.
- done.
Qed.
End ReleaseFacts.

Lemma replace_keeps_ids notes r (l : list Release) :
  release_id <$> map (fun x => if Nat.eqb (release_id x) (release_id r)
                               then set_notes notes r else x) l
  = release_id <$> l.
Proof.
  induction l as [|x l IH]; [done|]. cbn [map fmap list_fmap].
  f_equal; [|exact IH].
  destruct (Nat.eqb _ _) eqn:E; [|done]. by apply Nat.eqb_eq in E.
Qed.

(** X10. [add_release] keeps the release table well formed: ids below the
    sequence, no id twice, and at most one row per (product, version),
    whether it inserts, updates or is refused. It removes no row: the ids
    of the table before are the first ids of the table after, and the
    sequence does not go back. *)
Theorem add_release_preserves_inv t self name version notes :
  release_inv t ->
  let t' := (add_release t self name version notes).2 in
  release_inv t'
  /\ release_seq t <= release_seq t'
  /\ (release_id <$> releases t) `prefix_of` (release_id <$> releases t').
Proof.
  intros Hinv t'. split; [by apply add_release_keeps_inv|].
  unfold t', add_release.
  destruct (List.filter _ (releases t)) as [|r [|r1 rest]]; [| |done].
  - destruct (existsb _ _); [done|]. cbn [snd releases release_seq].
    split; [lia|]. rewrite fmap_app. by apply prefix_app_r.
  - cbn [snd releases release_seq]. split; [done|].
    by rewrite replace_keeps_ids.
Qed.

Lemma add_release_preserves_inv_witness :
  let t' := (add_release {| releases := []; release_seq := 1 |}
               {| product_id := 1; product_name := "rhel" |} "rhel-8" "8" "").2 in
  release_inv t' /\ 1 <= release_seq t'
  /\ [] `prefix_of` (release_id <$> releases t').
Proof.
  apply (add_release_preserves_inv {| releases := []; release_seq := 1 |}
           {| product_id := 1; product_name := "rhel" |} "rhel-8" "8" "").
  split_and!; [|apply NoDup_nil_2|]; intros *; by intros ?%elem_of_nil.
Defined.

(** X11. Calling [add_release] again with the name and version of a
    release it has returned updates that release in place: the same row
    comes back with the new notes, and the table has the same ids and the
    same sequence value. *)
Theorem add_release_again t self name version notes notes' r t1 :
  release_inv t ->
  add_release t self name version notes = (Ok r, t1) ->
  exists t2,
    add_release t1 self name version notes' = (Ok (set_notes notes' r), t2)
    /\ release_id <$> releases t2 = release_id <$> releases t1
    /\ release_seq t2 = release_seq t1
    /\ set_notes notes' r ∈ releases t2.
Proof.
  intros Hinv Hadd.
  pose proof (add_release_keeps_inv self name version t notes Hinv) as Hinv1.
  rewrite Hadd in Hinv1. cbn [snd] in Hinv1.
  pose proof (add_release_member _ _ _ _ _ _ _ Hinv Hadd) as Hr.
  destruct (add_release_fields t self name version notes r) as (Hn & Hv & Hp);
    [by rewrite Hadd|].
  destruct Hinv1 as (Hlt & Hnd & Hu).
  assert (List.filter (release_matches self name version) (releases t1) = [r])
    as Hf.
  { apply filter_single; [by eapply NoDup_fmap_1 | done | |].
    - by apply release_matches_iff.
    - intros x Hx (Hxp & Hxn & Hxv)%release_matches_iff.
      apply (NoDup_fmap_eq release_id _ x r Hnd Hx Hr).
      apply Hu; [done | done | congruence | congruence]. }
  unfold add_release. rewrite Hf. eexists. split; [reflexivity|].
  cbn [releases release_seq]. split_and!; [|done|].
  - apply replace_keeps_ids.
  - apply list_elem_of_In, in_map_iff. exists r.
    split; [by rewrite Nat.eqb_refl | by apply list_elem_of_In].
Qed.

Lemma add_release_again_witness :
  let rhel := {| product_id := 1; product_name := "rhel" |} in
  let t := {| releases := []; release_seq := 1 |} in
  let r := {| release_id := 1; release_product := 1; release_version := "8";
              release_name := "rhel-8"; release_notes := "" |} in
  exists t2,
    add_release {| releases := [r]; release_seq := 2 |} rhel "rhel-8" "8" "GA"
    = (Ok (set_notes "GA" r), t2)
    /\ release_id <$> releases t2 = [1]
    /\ release_seq t2 = 2
    /\ set_notes "GA" r ∈ releases t2.
Proof.
  intros rhel t r.
  apply (add_release_again t rhel "rhel-8" "8" "" "GA" r
           {| releases := [r]; release_seq := 2 |}).
  - split_and!; [|apply NoDup_nil_2|]; intros *; by intros ?%elem_of_nil.
  - reflexivity.
Defined.

(** X12. When the product already has a release of the version under
    another name, [add_release] is refused with [IntegrityError] and the
    table is left as it was. *)
Theorem add_release_version_taken t self name version notes r0 :
  release_inv t ->
  r0 ∈ releases t ->
  release_product r0 = product_id self ->
  release_version r0 = version ->
  release_name r0 ≠ name ->
  add_release t self name version notes = (Raise IntegrityError, t).
Proof.
  intros (Hlt & Hnd & Hu) Hr0 Hp Hv Hn. unfold add_release.
  rewrite filter_none.
  - assert (existsb (same_product_version self version) (releases t) = true)
      as ->; [|done].
    apply existsb_exists. exists r0. split; [by apply list_elem_of_In|].
    by apply same_product_version_iff.
  - intros x Hx. destruct (release_matches self name version x) eqn:E; [|done].
    apply release_matches_iff in E as (Hxp & Hxn & Hxv).
    assert (x = r0) as ->; [|congruence].
    apply (NoDup_fmap_eq release_id _ x r0 Hnd Hx Hr0).
    apply Hu; [done | done | congruence | congruence].
Qed.

Lemma add_release_version_taken_witness :
  let rhel := {| product_id := 1; product_name := "rhel" |} in
  let r := {| release_id := 1; release_product := 1; release_version := "8";
              release_name := "rhel-8"; release_notes := "" |} in
  let t := {| releases := [r]; release_seq := 2 |} in
  add_release t rhel "rhel-eight" "8" "" = (Raise IntegrityError, t).
Proof.
  intros rhel r t.
  apply (add_release_version_taken t rhel "rhel-eight" "8" "" r).
  - split_and!.
    + intros x Hx%list_elem_of_singleton. subst x. simpl. lia.
    + apply NoDup_singleton.
    + intros a b Ha%list_elem_of_singleton Hb%list_elem_of_singleton.
      by subst.
  - apply list_elem_of_here.
  - reflexivity.
  - reflexivity.
  - discriminate.
Defined.

(** *** Release.update_packages *)

Section PackageFacts.
Variables (rid : nat) (flag : bool).

Lemma new_packages_nvrs seq0 nvrs :
package_nvr <$> new_packages rid flag seq0 nvrs = nvrs.
Proof.
revert seq0. induction nvrs as [|nvr nvrs IH]; intros seq0; [done|].
cbn. by rewrite IH.
Qed.

Lemma new_packages_rows seq0 nvrs p :
p ∈ new_packages rid flag seq0 nvrs ->
package_release p = rid /\ is_source p = flag /\ package_nvr p ∈ nvrs.
Proof.
revert seq0. induction nvrs as [|nvr nvrs IH]; intros seq0;
  [by intros ?%elem_of_nil|].
cbn [new_packages]. intros [->|Hp]%elem_of_cons.
- split_and!; [done | done | apply list_elem_of_here].
- destruct (IH _ Hp) as (? & ? & ?).
  split_and!; [done | done | by apply list_elem_of_further].
Qed.

Lemma bulk_fold nvrs : forall t,
NoDup nvrs ->
(forall nvr p, nvr ∈ nvrs -> p ∈ packages t ->
   same_release_nvr rid nvr p = false) ->
foldl (fun acc obj => acc ≫= fun t' => insert_package t' obj) (Some t)
      ((fun nvr => (rid, nvr, flag)) <$> nvrs)
= Some {| packages := packages t ++ new_packages rid flag (package_seq t) nvrs;
          package_seq := package_seq t + List.length nvrs |}.
Proof.
induction nvrs as [|nvr nvrs IH]; intros t Hnd Hfree.
- destruct t. cbn. by rewrite app_nil_r, Nat.add_0_r.
- apply NoDup_cons in Hnd as [Hnvr Hnd].
  rewrite fmap_cons. cbn [foldl mbind option_bind insert_package].
  assert (existsb (same_release_nvr rid nvr) (packages t) = false) as ->.
  { apply existsb_false. intros p Hp. apply Hfree; [apply list_elem_of_here | done]. }
  rewrite IH; [| done |].
  + cbn [packages package_seq new_packages List.length].
    by rewrite <- app_assoc, Nat.add_succ_r.
  + cbn [packages]. intros nvr' p Hin [Hp|Hp%list_elem_of_singleton]%elem_of_app.
    * apply Hfree; [by apply list_elem_of_further | done].
    * subst p. unfold same_release_nvr. cbn.
      apply andb_false_iff. right. apply String.eqb_neq.
      intros ->. done.
Qed.
End PackageFacts.

Lemma existed_nvrs_elem t self nvr :
  nvr ∈ existed_nvrs t self <->
  exists p, p ∈ packages t /\ package_release p = release_id self
            /\ package_nvr p = nvr.
Proof.
  unfold existed_nvrs. rewrite list_elem_of_fmap. split.
  - intros (p & -> & Hp). apply list_elem_of_In, filter_In in Hp as [Hp He].
    exists p. split_and!; [by apply list_elem_of_In | by apply Nat.eqb_eq | done].
  - intros (p & Hp & Hr & <-). exists p. split; [done|].
    apply list_elem_of_In, filter_In. split; [by apply list_elem_of_In|].
    by apply Nat.eqb_eq.
Qed.

Lemma update_packages_eq t self nvr_list flag :
  let nvrs :=
    elements ((list_to_set nvr_list : gset string)
              ∖ list_to_set (existed_nvrs t self)) in
  update_packages t self nvr_list flag
  = (Ok (),
     {| packages :=
          packages t ++ new_packages (release_id self) flag (package_seq t) nvrs;
        package_seq := package_seq t + List.length nvrs |}).
Proof.
  intros nvrs. unfold update_packages, bulk_create. fold nvrs.
  rewrite bulk_fold; [done | apply NoDup_elements |].
  intros nvr p Hnvr Hp. unfold nvrs in Hnvr.
  apply elem_of_elements, elem_of_difference in Hnvr as [_ Hnot].
  destruct (same_release_nvr (release_id self) nvr p) eqn:E; [|done].
  exfalso. apply Hnot, elem_of_list_to_set, existed_nvrs_elem.
  unfold same_release_nvr in E. apply andb_true_iff in E as [E1 E2].
  apply Nat.eqb_eq in E1. apply String.eqb_eq in E2. by exists p.
Qed.

Lemma update_packages_new_rows t self nvr_list flag :
  exists new,
    update_packages t self nvr_list flag
    = (Ok (), {| packages := packages t ++ new;
                 package_seq := package_seq t + List.length new |})
    /\ NoDup (package_nvr <$> new)
    /\ (forall p, p ∈ new ->
          package_release p = release_id self /\ is_source p = flag)
    /\ (forall nvr, nvr ∈ package_nvr <$> new <->
          nvr ∈ nvr_list /\ nvr ∉ existed_nvrs t self).
Proof.
  set (nvrs := elements ((list_to_set nvr_list : gset string)
                         ∖ list_to_set (existed_nvrs t self))).
  exists (new_packages (release_id self) flag (package_seq t) nvrs).
  rewrite update_packages_eq. fold nvrs. rewrite new_packages_nvrs.
  split_and!.
  - do 3 f_equal. rewrite <- (new_packages_nvrs (release_id self) flag
                               (package_seq t) nvrs) at 1.
    by rewrite length_fmap.
  - apply NoDup_elements.
  - intros p Hp. by destruct (new_packages_rows _ _ _ _ _ Hp) as (? & ? & _).
  - intros nvr. unfold nvrs.
    by rewrite elem_of_elements, elem_of_difference, !elem_of_list_to_set.
Qed.

Lemma update_packages_has_all t self nvr_list flag nvr :
  nvr ∈ nvr_list ->
  nvr ∈ existed_nvrs (update_packages t self nvr_list flag).2 self.
Proof.
  destruct (update_packages_new_rows t self nvr_list flag)
    as (new & -> & _ & Hrows & Hnew).
  intros Hin. cbn [snd]. apply existed_nvrs_elem. cbn [packages].
  destruct (decide (nvr ∈ existed_nvrs t self)) as [Hex|Hex].
  - apply existed_nvrs_elem in Hex as (p & Hp & Hr & Hn).
    exists p. split; [apply elem_of_app; by left | done].
  - assert (nvr ∈ package_nvr <$> new) as Hn by by apply Hnew.
    apply list_elem_of_fmap in Hn as (p & -> & Hp).
    exists p. split; [apply elem_of_app; by right|]. split; [|done].
    by apply Hrows.
Qed.

(** X13. [update_packages] never fails. It leaves the rows of the table as
    they are and adds one row, for this release and with the given flag,
    for each nvr of the list that the release did not have, each once;
    afterwards the release has every nvr of the list. *)
Theorem update_packages_adds_missing t self nvr_list flag :
  exists new,
    update_packages t self nvr_list flag
    = (Ok (), {| packages := packages t ++ new;
                 package_seq := package_seq t + List.length new |})
    /\ NoDup (package_nvr <$> new)
    /\ (forall p, p ∈ new ->
          package_release p = release_id self /\ is_source p = flag)
    /\ (forall nvr, nvr ∈ package_nvr <$> new <->
          nvr ∈ nvr_list /\ nvr ∉ existed_nvrs t self)
    /\ (forall nvr, nvr ∈ nvr_list ->
          nvr ∈ existed_nvrs (update_packages t self nvr_list flag).2 self).
Proof.
  destruct (update_packages_new_rows t self nvr_list flag)
    as (new & Heq & Hnd & Hrows & Hnew).
  exists new. split_and!; [done..|].
  intros nvr Hin. by apply update_packages_has_all.
Qed.

(** X14. [update_packages] keeps (release, package_nvr) unique in the
    package table. *)
Theorem update_packages_preserves_inv t self nvr_list flag :
  package_inv t -> package_inv (update_packages t self nvr_list flag).2.
Proof.
  intros Hinv.
  destruct (update_packages_new_rows t self nvr_list flag)
    as (new & -> & Hnd & Hrows & Hnew).
  cbn [snd]. intros i j a b. cbn [packages].
  rewrite !lookup_app_Some.
  intros [Hi|[Hli Hi]] [Hj|[Hlj Hj]] Hr Hn.
  - by eapply Hinv.
  - exfalso.
    assert (package_nvr b ∈ package_nvr <$> new) as Hb
      by (apply list_elem_of_fmap; exists b; split; [done|];
          by eapply list_elem_of_lookup_2).
    apply Hnew in Hb as [_ Hb]. apply Hb, existed_nvrs_elem.
    exists a. split_and!; [by eapply list_elem_of_lookup_2| |done].
    rewrite Hr. by apply Hrows, (list_elem_of_lookup_2 _ _ _ Hj).
  - exfalso.
    assert (package_nvr a ∈ package_nvr <$> new) as Ha
      by (apply list_elem_of_fmap; exists a; split; [done|];
          by eapply list_elem_of_lookup_2).
    apply Hnew in Ha as [_ Ha]. apply Ha, existed_nvrs_elem.
    exists b. split_and!; [by eapply list_elem_of_lookup_2| |done].
    rewrite <- Hr. by apply Hrows, (list_elem_of_lookup_2 _ _ _ Hi).
  - assert (i - List.length (packages t) = j - List.length (packages t)); [|lia].
    apply (NoDup_lookup _ _ _ (package_nvr a) Hnd); rewrite list_lookup_fmap.
    + by rewrite Hi.
    + rewrite Hj. simpl. by rewrite Hn.
Qed.

Lemma update_packages_preserves_inv_witness :
  let r := {| release_id := 1; release_product := 1; release_version := "8";
              release_name := "rhel-8"; release_notes := "" |} in
  package_inv
    (update_packages {| packages := []; package_seq := 1 |} r
       ["a-1-1"; "b-1-1"; "a-1-1"] true).2.
Proof.
  intros r. apply update_packages_preserves_inv.
  intros i j a b H. done.
Defined.

(** X15. A second [update_packages] with the same list changes nothing,
    whatever flag it is given: the rows stay, with the flag they have. *)
Theorem update_packages_idempotent t self nvr_list flag flag' res t' :
  update_packages t self nvr_list flag = (res, t') ->
  update_packages t' self nvr_list flag' = (Ok (), t').
Proof.
  intros H.
  assert (t' = (update_packages t self nvr_list flag).2) as Ht'
    by by rewrite H.
  assert (forall nvr, nvr ∈ nvr_list -> nvr ∈ existed_nvrs t' self) as Hall.
  { intros nvr Hin. rewrite Ht'. by apply update_packages_has_all. }
  rewrite update_packages_eq.
  assert ((list_to_set nvr_list : gset string)
          ∖ list_to_set (existed_nvrs t' self) = ∅) as ->.
  { apply elem_of_equiv_empty_L. intros x [Hx Hnx]%elem_of_difference.
    apply Hnx, elem_of_list_to_set, Hall. by apply elem_of_list_to_set in Hx. }
  rewrite elements_empty. destruct t'. cbn.
  by rewrite app_nil_r, Nat.add_0_r.
Qed.

Lemma update_packages_idempotent_witness :
  let r := {| release_id := 1; release_product := 1; release_version := "8";
              release_name := "rhel-8"; release_notes := "" |} in
  let t := {| packages := []; package_seq := 1 |} in
  update_packages (update_packages t r ["a-1-1"; "b-1-1"] true).2 r
    ["a-1-1"; "b-1-1"] false
  = (Ok (), (update_packages t r ["a-1-1"; "b-1-1"] true).2).
Proof.
  intros r t.
  apply (update_packages_idempotent t r ["a-1-1"; "b-1-1"] true false
           (update_packages t r ["a-1-1"; "b-1-1"] true).1).
  by destruct (update_packages t r ["a-1-1"; "b-1-1"] true).
Defined.

(** ** packages/serializers.py *)

Lemma filter_nonempty {X} (f : X -> bool) (l : list X) x :
  x ∈ l -> f x = true -> List.filter f l ≠ [].
Proof.
  intros Hx Hf Hnil.
  assert (In x (List.filter f l)) as Hin
    by (apply filter_In; split; [by apply list_elem_of_In | done]).
  by rewrite Hnil in Hin.
Qed.

Lemma filter_two {X} (f : X -> bool) (l : list X) : forall i j a b,
  i < j -> l !! i = Some a -> l !! j = Some b -> f a = true -> f b = true ->
  exists x y rest, List.filter f l = x :: y :: rest.
Proof.
  induction l as [|h t IH]; intros i j a b Hlt Hi Hj Ha Hb; [done|].
  destruct i as [|i], j as [|j]; try lia; cbn in Hi, Hj; cbn [List.filter].
  - injection Hi as ->. rewrite Ha.
    destruct (List.filter f t) as [|y rest] eqn:E; [|by eauto].
    exfalso. apply (filter_nonempty f t b); [|done..].
    by eapply list_elem_of_lookup_2.
  - destruct (IH i j a b) as (x & y & rest & ->); [lia | done..|].
    destruct (f h); eauto.
Qed.


(** X16. A name that two release rows carry makes [release_validator]
    raise [MultipleObjectsReturned], which is not a validation error, and a
    batch that names such a release ends with that exception in the state
    it started from. *)
Theorem release_validator_ambiguous
    (uuid : nat -> string) (w : world) (data : validated_data) (user_id : nat)
    (name : string) (i j : nat) (a b : Release) :
  i ≠ j ->
  release_rows w !! i = Some a -> release_rows w !! j = Some b ->
  release_name a = name -> release_name b = name ->
  release_validator w (Some name) = Raise MultipleObjectsReturned
  /\ (product_release data = Some (Some name) ->
      submit_import uuid w data user_id = (Raise MultipleObjectsReturned, w)).
Proof.
  intros Hij Hi Hj Ha Hb.
  assert (exists x y rest,
            List.filter (fun r => String.eqb (release_name r) name)
              (release_rows w) = x :: y :: rest) as (x & y & rest & Hf).
  { destruct (decide (i < j)).
    - apply (filter_two _ _ i j a b); [done..| |]; by apply String.eqb_eq.
    - apply (filter_two _ _ j i b a); [lia | done..| |]; by apply String.eqb_eq. }
  assert (release_validator w (Some name) = Raise MultipleObjectsReturned) as Hv.
  { unfold release_validator, release_get. by rewrite Hf. }
  split; [done|]. intros Hpr.
  unfold submit_import, is_valid, validate_product_release.
  by rewrite Hpr, Hv.
Qed.

Lemma release_validator_ambiguous_witness :
  let r id p := {| release_id := id; release_product := p;
                   release_version := "8"; release_name := "8.0";
                   release_notes := "" |} in
  let w := {| release_rows := [r 1 1; r 2 2]; tasks := []; task_seq := 1;
              sent := [] |} in
  release_validator w (Some "8.0") = Raise MultipleObjectsReturned.
Proof.
  intros r w.
  apply (release_validator_ambiguous pretty w
           {| package_nvrs := []; license_scan := None; copyright_scan := None;
              srpm_dir := None; product_release := None |}
           7 "8.0" 0 1 (r 1 1) (r 2 2));
    [lia | reflexivity..].
Defined.



(** X18. The shared parameters that [get_task_params] builds: both scan
    flags are always there and default to true; [srpm_dir] is there when it
    was given, the empty string too; [product_release] is there only when a
    non-empty name was given; and there is no other key. *)
Theorem get_task_params_keys data :
  let p := get_task_params data in
  p !! "license_scan" = Some (VBool (default true (license_scan data)))
  /\ p !! "copyright_scan" = Some (VBool (default true (copyright_scan data)))
  /\ p !! "srpm_dir" = VStr <$> srpm_dir data
  /\ p !! "product_release" =
       match product_release data with
       | Some (Some r) => if decide (r = "") then None else Some (VStr r)
       | _ => None
       end
  /\ forall k, k ∉ ["license_scan"; "copyright_scan"; "srpm_dir";
                    "product_release"] -> p !! k = None.
Proof.
  unfold get_task_params.
  assert (forall r, py_truthy (VStr r) = if decide (r = "") then false else true)
    as Htruthy.
  { intros r. cbn. destruct (decide (r = "")) as [->|Hne]; [done|].
    by apply negb_true_iff, String.eqb_neq. }
  destruct (product_release data) as [[r|]|];
    [rewrite Htruthy; destruct (decide (r = ""))| |];
    destruct (srpm_dir data) as [d|]; cbn;
    (split_and!; [by simplify_map_eq..|]);
    intros k Hk; repeat (apply not_elem_of_cons in Hk as [? Hk]);
    by simplify_map_eq.
Qed.

Lemma get_task_params_no_owner data : get_task_params data !! "owner_id" = None.
Proof.
  unfold get_task_params.
  destruct (product_release data) as [[r|]|];
    [destruct (py_truthy (VStr r))| |];
    destruct (srpm_dir data); by simplify_map_eq.
Qed.

Section ForkMore.
Variable uuid : nat -> string.
Variables (data : validated_data) (user_id : nat).

Lemma fork_import_tasks_eq w :
fork_import_tasks uuid w data user_id
= (Ok (result_from (task_seq w) (package_nvrs data) ∅),
   {| release_rows := release_rows w;
      tasks := tasks w ++ tasks_from uuid data user_id (task_seq w)
                            (List.length (sent w)) (package_nvrs data);
      task_seq := task_seq w + List.length (package_nvrs data);
      sent := sent w ++ messages_from uuid data user_id
                          (List.length (sent w)) (package_nvrs data) |}).
Proof.
unfold fork_import_tasks. rewrite get_tasks_params_ok. by rewrite fork_foldl.
Qed.

Lemma tasks_from_id nvrs : forall seq0 sent0 i t,
tasks_from uuid data user_id seq0 sent0 nvrs !! i = Some t ->
task_id t = seq0 + i.
Proof.
induction nvrs as [|x nvrs IH]; intros seq0 sent0 [|i] t H; try done.
- injection H as <-. cbn. lia.
- cbn in H. rewrite (IH _ _ _ _ H). lia.
Qed.

Lemma messages_from_id nvrs : forall sent0 i m,
messages_from uuid data user_id sent0 nvrs !! i = Some m ->
msg_task_id m = uuid (sent0 + i).
Proof.
induction nvrs as [|x nvrs IH]; intros sent0 [|i] m H; try done.
- injection H as <-. cbn. by rewrite Nat.add_0_r.
- cbn in H. rewrite (IH _ _ _ H). by rewrite Nat.add_succ_r.
Qed.

Lemma result_from_last nvrs : forall seq0 result i nvr,
nvrs !! i = Some nvr ->
(forall j, i < j -> nvrs !! j ≠ Some nvr) ->
result_from seq0 nvrs result !! nvr = Some {["task_id" := seq0 + i]}.
Proof.
induction nvrs as [|x nvrs IH]; intros seq0 result [|i] nvr H Hlast; try done.
- injection H as ->. cbn. rewrite result_from_other.
  + by rewrite lookup_insert_eq, Nat.add_0_r.
  + intros [j Hj]%list_elem_of_lookup. by apply (Hlast (S j)); [lia|].
- cbn. rewrite (IH _ _ i nvr H); [by rewrite Nat.add_succ_r|].
  intros j Hj. apply (Hlast (S j)). lia.
Qed.

(** X19. The owner id goes into the message and not into the record: for
  the item at position [i] of a batch, the Task record and the message
  added at that position carry the same correlation id; the parameters
  of the record have the item's nvr and no [owner_id]; the payload of the
  message has [owner_id], and without it is the parameters of the
  record. *)
Theorem fork_import_tasks_owner_id w i nvr :
package_nvrs data !! i = Some nvr ->
let w' := (fork_import_tasks uuid w data user_id).2 in
exists t m payload,
  tasks w' !! (List.length (tasks w) + i) = Some t
  /\ sent w' !! (List.length (sent w) + i) = Some m
  /\ msg_args m = [payload]
  /\ msg_task_id m = meta_id t
  /\ task_params t !! "package_nvr" = Some (VStr nvr)
  /\ task_params t !! "owner_id" = None
  /\ payload !! "owner_id" = Some (VInt (Z.of_nat user_id))
  /\ delete "owner_id" payload = task_params t.
Proof.
intros Hi w'. unfold w'. rewrite fork_import_tasks_eq. cbn [snd tasks sent].
exists (task_at uuid data user_id (task_seq w + i)
          (List.length (sent w) + i) nvr),
       (message_at uuid data user_id (List.length (sent w) + i) nvr),
       (<["owner_id" := VInt (Z.of_nat user_id)]>
          (deepcopy (item_params data nvr))).
assert (item_params data nvr !! "owner_id" = None) as Hno.
{ unfold item_params. rewrite lookup_insert_ne by done.
  apply get_task_params_no_owner. }
split_and!.
- rewrite lookup_app_r by lia.
  replace (List.length (tasks w) + i - List.length (tasks w)) with i by lia.
  by apply tasks_from_lookup.
- rewrite lookup_app_r by lia.
  replace (List.length (sent w) + i - List.length (sent w)) with i by lia.
  by apply messages_from_lookup.
- done.
- done.
- cbn. unfold item_params. by rewrite lookup_insert_eq.
- done.
- by rewrite lookup_insert_eq.
- rewrite delete_insert_eq, deepcopy_id. cbn. by apply delete_id.
Qed.

(** X20. When a key stands more than once in a batch, the result maps it
  to the Task record of its last item. *)
Theorem fork_import_tasks_last_wins w i nvr :
package_nvrs data !! i = Some nvr ->
(forall j, i < j -> package_nvrs data !! j ≠ Some nvr) ->
exists result,
  (fork_import_tasks uuid w data user_id).1 = Ok result
  /\ result !! nvr = Some {["task_id" := task_seq w + i]}.
Proof.
intros Hi Hlast. rewrite fork_import_tasks_eq. eexists. split; [done|].
by apply result_from_last.
Qed.

(** X21. [fork_import_tasks] keeps the task table and the message log well
  formed: task ids stay below the sequence and pairwise different, and
  the n-th message carries the n-th id of the client, so that with fresh
  ids no correlation id is ever given twice, across batches too. *)
Theorem fork_import_tasks_preserves_inv w :
world_inv uuid w ->
let w' := (fork_import_tasks uuid w data user_id).2 in
world_inv uuid w'
/\ ((forall i j, uuid i = uuid j -> i = j) ->
    NoDup (msg_task_id <$> sent w')).
Proof.
intros (Hlt & Hnd & Hsent) w'.
assert (world_inv uuid w') as Hinv.
{ unfold w'. rewrite fork_import_tasks_eq. unfold world_inv.
  cbn [snd tasks task_seq sent]. split_and!.
  - intros t [Ht|Ht]%elem_of_app; [apply Hlt in Ht; lia|].
    apply list_elem_of_lookup in Ht as [k Hk].
    pose proof (lookup_lt_Some _ _ _ Hk) as Hlen.
    rewrite tasks_from_length in Hlen.
    apply tasks_from_id in Hk. lia.
  - rewrite fmap_app. apply NoDup_app. split_and!; [done | |].
    + intros x (t & -> & Ht)%list_elem_of_fmap
               (t' & Hx & [k Hk]%list_elem_of_lookup)%list_elem_of_fmap.
      apply Hlt in Ht. apply tasks_from_id in Hk. lia.
    + apply NoDup_alt. intros k1 k2 x H1 H2.
      rewrite list_lookup_fmap in H1, H2.
      destruct (tasks_from _ _ _ _ _ _ !! k1) as [t1|] eqn:E1; [|done].
      destruct (tasks_from _ _ _ _ _ _ !! k2) as [t2|] eqn:E2; [|done].
      apply tasks_from_id in E1, E2. cbn in H1, H2.
      injection H1 as <-. injection H2 as H2. lia.
  - intros k m [Hk|[Hlen Hk]]%lookup_app_Some; [by apply Hsent|].
    apply messages_from_id in Hk. rewrite Hk. f_equal. lia. }
split; [done|]. intros Hinj. destruct Hinv as (_ & _ & Hs).
apply NoDup_alt. intros k1 k2 x H1 H2. rewrite list_lookup_fmap in H1, H2.
destruct (sent w' !! k1) as [m1|] eqn:E1; [|done].
destruct (sent w' !! k2) as [m2|] eqn:E2; [|done].
apply Hs in E1, E2. cbn in H1, H2. apply Hinj. congruence.
Qed.

End ForkMore.

Lemma fork_import_tasks_owner_id_witness :
  let w := {| release_rows := []; tasks := []; task_seq := 1; sent := [] |} in
  let data := {| package_nvrs := ["a"; "b"]; license_scan := Some true;
                 copyright_scan := None; srpm_dir := None;
                 product_release := None |} in
  exists t m payload,
    tasks (fork_import_tasks pretty w data 7).2 !! 1 = Some t
    /\ sent (fork_import_tasks pretty w data 7).2 !! 1 = Some m
    /\ msg_args m = [payload]
    /\ msg_task_id m = meta_id t
    /\ task_params t !! "package_nvr" = Some (VStr "b")
    /\ task_params t !! "owner_id" = None
    /\ payload !! "owner_id" = Some (VInt 7)
    /\ delete "owner_id" payload = task_params t.
Proof.
  intros w data. apply (fork_import_tasks_owner_id pretty data 7 w 1 "b").
  reflexivity.
Defined.

Lemma fork_import_tasks_last_wins_witness :
  let w := {| release_rows := []; tasks := []; task_seq := 1; sent := [] |} in
  let data := {| package_nvrs := ["a"; "b"; "a"]; license_scan := None;
                 copyright_scan := None; srpm_dir := None;
                 product_release := None |} in
  exists result,
    (fork_import_tasks pretty w data 7).1 = Ok result
    /\ result !! "a" = Some {["task_id" := 3]}.
Proof.
  intros w data. apply (fork_import_tasks_last_wins pretty data 7 w 2 "a").
  - reflexivity.
  - intros j Hj H. apply lookup_lt_Some in H. cbn in H. lia.
Defined.

Lemma fork_import_tasks_preserves_inv_witness :
  let w := {| release_rows := []; tasks := []; task_seq := 1; sent := [] |} in
  let data := {| package_nvrs := ["a"; "b"]; license_scan := None;
                 copyright_scan := None; srpm_dir := None;
                 product_release := None |} in
  world_inv pretty (fork_import_tasks pretty w data 7).2
  /\ ((forall i j : nat, pretty i = pretty j -> i = j) ->
      NoDup (msg_task_id <$> sent (fork_import_tasks pretty w data 7).2)).
Proof.
  intros w data. apply (fork_import_tasks_preserves_inv pretty data 7 w).
  split_and!; [|apply NoDup_nil_2|]; intros *; [by intros ?%elem_of_nil | done].
Defined.

(** ** products/models.py: cascading deletion *)

Section Cascade.
Variable rs : list TreeNode.

Lemma cascade_S fuel ids :
cascade (S fuel) rs ids = cascade fuel rs (ids ++ children_of rs ids).
Proof. reflexivity. Qed.

Lemma children_of_elem ids x :
x ∈ children_of rs ids <->
exists r p, r ∈ rs /\ parent r = Some p /\ p ∈ ids /\ node_id r = x.
Proof.
unfold children_of. rewrite list_elem_of_In, in_map_iff. split.
- intros (r & <- & Hr). apply filter_In in Hr as [Hr Hp].
  destruct (parent r) as [p|] eqn:E; [|done]. apply bool_decide_eq_true in Hp.
  exists r, p. split_and!; [by apply list_elem_of_In | done..].
- intros (r & p & Hr & Hp & Hin & <-). exists r. split; [done|].
  apply filter_In. split; [by apply list_elem_of_In|].
  rewrite Hp. by apply bool_decide_eq_true.
Qed.

Lemma closed_ext ids ids' :
(forall x, x ∈ ids <-> x ∈ ids') -> closed rs ids -> closed rs ids'.
Proof. intros H Hc r p Hr Hp Hin. apply H, (Hc r p); [done..|]. by apply H. Qed.

Lemma closed_round ids :
closed rs ids -> closed rs (ids ++ children_of rs ids).
Proof.
intros Hc. apply (closed_ext ids); [|done]. intros x.
rewrite elem_of_app, children_of_elem. split; [by left|].
intros [H|(r & p & Hr & Hp & Hin & <-)]; [done|]. by apply (Hc r p).
Qed.

Lemma closed_cascade fuel : forall ids,
closed rs ids -> closed rs (cascade fuel rs ids).
Proof.
induction fuel as [|fuel IH]; intros ids Hc; [done|].
rewrite cascade_S. by apply IH, closed_round.
Qed.

Lemma cascade_mono fuel : forall ids x, x ∈ ids -> x ∈ cascade fuel rs ids.
Proof.
induction fuel as [|fuel IH]; intros ids x Hx; [done|].
rewrite cascade_S. apply IH, elem_of_app. by left.
Qed.

(** Whoever is removed is in the first list or the child of one removed. *)
Lemma cascade_origin fuel : forall ids x,
x ∈ cascade fuel rs ids ->
x ∈ ids
\/ exists r p, r ∈ rs /\ parent r = Some p /\ node_id r = x
               /\ p ∈ cascade fuel rs ids.
Proof.
induction fuel as [|fuel IH]; intros ids x Hx; [by left|].
rewrite cascade_S in Hx |- *. apply IH in Hx as [Hx|Hx]; [|by right].
apply elem_of_app in Hx as [Hx|Hx]; [by left|]. right.
apply children_of_elem in Hx as (r & p & Hr & Hp & Hin & <-).
exists r, p. split_and!; [done..|]. apply cascade_mono, elem_of_app. by left.
Qed.

Lemma pending_false ids : pending rs ids = false -> closed rs ids.
Proof.
unfold pending. rewrite existsb_false. intros H r p Hr Hp Hin.
specialize (H r Hr). rewrite Hp in H.
rewrite (bool_decide_eq_true_2 _ Hin) in H. cbn in H.
by apply negb_false_iff, bool_decide_eq_true in H.
Qed.

Lemma filter_length_le {X} (f : X -> bool) (l : list X) :
List.length (List.filter f l) <= List.length l.
Proof.
induction l as [|x l IH]; cbn; [lia|]. destruct (f x); cbn; lia.
Qed.

Lemma filter_length_mono {X} (f g : X -> bool) (l : list X) :
(forall x, g x = true -> f x = true) ->
List.length (List.filter g l) <= List.length (List.filter f l).
Proof.
intros Hgf. induction l as [|y l IH]; cbn; [lia|].
destruct (g y) eqn:Eg; [rewrite (Hgf y Eg); cbn; lia|].
destruct (f y); cbn; lia.
Qed.

Lemma filter_length_lt {X} (f g : X -> bool) (l : list X) r :
(forall x, g x = true -> f x = true) ->
r ∈ l -> f r = true -> g r = false ->
List.length (List.filter g l) < List.length (List.filter f l).
Proof.
intros Hgf. induction l as [|x l IH]; intros Hr Hf Hg;
  [by apply elem_of_nil in Hr|].
pose proof (filter_length_mono f g l Hgf) as Hle.
cbn [List.filter]. apply elem_of_cons in Hr as [<-|Hr].
- rewrite Hf, Hg. cbn. lia.
- specialize (IH Hr Hf Hg).
  destruct (g x) eqn:Eg; [rewrite (Hgf x Eg); cbn; lia|].
  destruct (f x); cbn; lia.
Qed.

Lemma pending_true ids :
pending rs ids = true ->
List.length (out rs (ids ++ children_of rs ids)) < List.length (out rs ids).
Proof.
unfold pending. intros (r & Hr & H)%existsb_exists.
destruct (parent r) as [p|] eqn:Hp; [|done].
apply andb_true_iff in H as [Hin Hout]. apply bool_decide_eq_true in Hin.
unfold out. apply (filter_length_lt _ _ rs r).
- intros x Hx. apply negb_true_iff, bool_decide_eq_false in Hx.
  apply negb_true_iff, bool_decide_eq_false. intros Hx'. apply Hx.
  apply elem_of_app. by left.
- by apply list_elem_of_In.
- done.
- apply negb_false_iff, bool_decide_eq_true, elem_of_app. right.
  apply children_of_elem. exists r, p. split_and!; [|done..].
  by apply list_elem_of_In.
Qed.

Lemma cascade_closed fuel : forall ids,
List.length (out rs ids) <= fuel -> closed rs (cascade fuel rs ids).
Proof.
induction fuel as [|fuel IH]; intros ids Hlen.
- intros r p Hr Hp Hin. cbn.
  destruct (decide (node_id r ∈ ids)) as [|Hno]; [done|]. exfalso.
  assert (In r (out rs ids)) as Hout.
  { apply filter_In. split; [by apply list_elem_of_In|].
    by apply negb_true_iff, bool_decide_eq_false. }
  destruct (out rs ids); [done | cbn in Hlen; lia].
- destruct (pending rs ids) eqn:E.
  + rewrite cascade_S. apply IH. apply pending_true in E. lia.
  + by apply closed_cascade, pending_false.
Qed.

Lemma cascade_all_closed ids : closed rs (cascade (List.length rs) rs ids).
Proof. apply cascade_closed, filter_length_le. Qed.
End Cascade.

Lemma has_row_iff tb id :
  has_row tb id = true <-> exists r, r ∈ rows tb /\ node_id r = id.
Proof.
  unfold has_row. rewrite existsb_exists. split.
  - intros (r & Hr & He). exists r. split; [by apply list_elem_of_In|].
    by apply Nat.eqb_eq.
  - intros (r & Hr & He). exists r. split; [by apply list_elem_of_In|].
    by apply Nat.eqb_eq.
Qed.

Lemma delete_node_rows t s id r :
  r ∈ rows (table_of t (delete_node t s id)) <->
  r ∈ rows (table_of t s)
  /\ node_id r ∉ cascade (List.length (rows (table_of t s)))
                   (rows (table_of t s)) [id].
Proof.
  unfold delete_node. rewrite table_of_set_same. cbn [rows]. split.
  - intros Hr. apply list_elem_of_In, filter_In in Hr as [Hr Hg].
    split; [by apply list_elem_of_In|].
    by apply negb_true_iff, bool_decide_eq_false in Hg.
  - intros [Hr Hg]. apply list_elem_of_In, filter_In.
    split; [by apply list_elem_of_In|].
    by apply negb_true_iff, bool_decide_eq_false.
Qed.

(** X23. On a table whose ids are pairwise different, [delete_node]
    removes the node and, with it, every row below it, and nothing else: no
    row that stays has the id of the node; a row that stays keeps its
    parent in the table when it had it there; a row that goes is the node
    or the child of the node or of a row that goes; the id sequence and the
    other tree are as they were. *)
Theorem delete_node_cascades t s id :
  NoDup (node_id <$> rows (table_of t s)) ->
  let before := table_of t s in
  let after := table_of t (delete_node t s id) in
  (forall r, r ∈ rows after -> r ∈ rows before /\ node_id r ≠ id)
  /\ (forall r p, r ∈ rows after -> parent r = Some p ->
        has_row before p = true -> has_row after p = true)
  /\ (forall r, r ∈ rows before -> r ∉ rows after ->
        node_id r = id
        \/ exists p, parent r = Some p
             /\ (p = id \/ exists r0, r0 ∈ rows before /\ (r0 ∉ rows after)
                             /\ node_id r0 = p))
  /\ seq after = seq before
  /\ (forall t', t' ≠ t -> table_of t' (delete_node t s id) = table_of t' s).
Proof.
  intros Hnd before after.
  set (gone := cascade (List.length (rows before)) (rows before) [id]).
  assert (forall r, r ∈ rows after <-> r ∈ rows before /\ node_id r ∉ gone)
    as Hrows by apply delete_node_rows.
  split_and!.
  - intros r [Hr Hg]%Hrows. split; [done|]. intros <-. apply Hg.
    apply cascade_mono, list_elem_of_here.
  - intros r p [Hr Hg]%Hrows Hp (r0 & Hr0 & Hid)%has_row_iff.
    apply has_row_iff. exists r0. split; [|done]. apply Hrows. split; [done|].
    rewrite Hid. intros Hin. apply Hg.
    by apply (cascade_all_closed (rows before) [id] r p).
  - intros r Hr Hgone.
    assert (node_id r ∈ gone) as Hin.
    { destruct (decide (node_id r ∈ gone)); [done|]. exfalso.
      by apply Hgone, Hrows. }
    destruct (cascade_origin _ _ _ _ Hin) as [Hx|(r1 & p & Hr1 & Hp & Hid & Hpin)].
    { left. by apply list_elem_of_singleton in Hx. }
    right. exists p.
    assert (r1 = r) as -> by by apply (NoDup_fmap_eq node_id (rows before)).
    split; [done|].
    destruct (cascade_origin _ _ _ _ Hpin) as [Hx|(r0 & p0 & Hr0 & _ & Hid0 & _)].
    + left. by apply list_elem_of_singleton in Hx.
    + right. exists r0. split_and!; [done| |done].
      intros [_ Hno]%Hrows. apply Hno. by rewrite Hid0.
  - unfold after, delete_node. by rewrite table_of_set_same.
  - intros t' Ht'. unfold delete_node. destruct t, t'; done.
Qed.

Lemma delete_node_cascades_witness :
  let s := (create ProductTree
              (create ProductTree
                 (create ProductTree empty_store "rhel" None 7 1).2
                 "rhel-8" (Some 1) 8 1).2
              "rhel-9" (Some 1) 8 2).2 in
  rows (product_nodes (delete_node ProductTree s 1)) = []
  /\ forall r, r ∈ rows (table_of ProductTree (delete_node ProductTree s 1)) ->
       r ∈ rows (table_of ProductTree s) /\ node_id r ≠ 1.
Proof.
  intros s. split; [vm_compute; reflexivity|].
  apply (delete_node_cascades ProductTree s 1).
  vm_compute. repeat constructor; intros H;
    repeat (apply elem_of_cons in H as [H|H]; [discriminate H|]);
    by apply elem_of_nil in H.
Defined.

Section TreeInv.
Implicit Types (tb : table) (s : store).







End TreeInv.


